(** * 3d-crossword: the consistency and history engine of [src/App.tsx]

    A shallow embedding of the second generation of the application
    (the code from [onlyContainsUpperCaseAlphabetsAndSpaces] on): the
    letter geometry, the lattice reconciler of [CreateCrossword], the
    validity computation of [CreateCrosswordMenu], the file check of
    [OpenCrossword], the reducer [createCrosswordReducer] with its
    undo/redo history, and the two-pass reconciliation and the solved
    flag of the solving view.

    Conventions of the embedding.
    - A JavaScript number holding a lattice coordinate or an index that may
      be negative is a [Z]; array indices and lengths are [nat].
    - A string is a [string]; [word[i]] is the [i]-th character of
      [chars word].
    - The [Map] keyed by the text [`${x} ${y} ${z}`] is a [gmap] keyed by
      the triple itself: the text is an injective encoding of the triple.
    - A function returns [None] where the source throws a [TypeError], or
      where [undefined] would flow into a place that the TypeScript types
      declare to hold a value ([words[i]] read out of range). *)

From Stdlib Require Import ZArith Ascii String List Permutation.
From stdpp Require Import gmap strings list fin_maps.

Local Open Scope Z_scope.

(** ** Data model *)

(** ["X" | "Y" | "Z"]; the third axis is written [Z'], [Z] being the type
    of the integers. *)
Inductive Direction := X | Y | Z'.

#[global] Instance Direction_eq_dec : EqDecision Direction.
Proof. solve_decision. Defined.

(** [[number, number, number]] *)
Definition Coord : Type := Z * Z * Z.

Definition origin : Coord := (0, 0, 0).

Record Word := mkWord {
  word : string;
  direction : Direction;
  start : Coord;
  description : string
}.

#[global] Instance Word_eq_dec : EqDecision Word.
Proof. solve_decision. Defined.

Record Crossword := mkCrossword {
  name : string;
  words : list Word
}.

Definition EXAMPLE_CROSSWORD : Crossword :=
  mkCrossword "Example"
    [mkWord "HELLO" X (0, 0, 0) "Greeting";
     mkWord "WORLD" Y (4, 1, 0) "Earth"].

(** The characters of a string, in order: [s[0]], [s[1]], ... *)
Definition chars (s : string) : list ascii := list_ascii_of_string s.

Definition SPACE : ascii := " "%char.
Definition CONFLICT : ascii := "?"%char.

(** ** Geometry *)

Module Geometry.

Definition wordLetterPosition (start : Coord) (direction : Direction)
    (index : Z) : Coord :=
  let '(s0, s1, s2) := start in
  match direction with
  | X => (s0 + index, s1, s2)
  | Y => (s0, s1 - index, s2)
  | Z' => (s0, s1, s2 + index)
  end.




(** [Math.floor(word.length / 2)] *)
Definition centerBlockIndex (w : string) : Z :=
  Z.of_nat (String.length w / 2).

End Geometry.

Export Geometry.

(** ** Lattice reconciler (authoring mode) *)

(** The two opacities the code produces: [1.0] and [0.1]. *)
Inductive Opacity := Opaque1 | Faint.

#[global] Instance Opacity_eq_dec : EqDecision Opacity.
Proof. solve_decision. Defined.

(** [Math.max] on the two values. *)
Definition opacityMax (a b : Opacity) : Opacity :=
  match a, b with
  | Faint, Faint => Faint
  | _, _ => Opaque1
  end.

Record LetterEntry := mkEntry {
  letter : ascii;
  position : Coord;
  opacity : Opacity;
  lettersBy : list nat
}.

#[global] Instance LetterEntry_eq_dec : EqDecision LetterEntry.
Proof. solve_decision. Defined.

Module Reconciler.

(** [currentWordIndex === null || currentWordIndex === wordIndex ? 1.0 : 0.1] *)
Definition wordOpacity (currentWordIndex : option nat) (wordIndex : nat)
    : Opacity :=
  match currentWordIndex with
  | None => Opaque1
  | Some c => if decide (c = wordIndex) then Opaque1 else Faint
  end.

(** The body of the inner loop of [CreateCrossword]: one character [c] of
    word [wordIndex] arrives at [position]. *)
Definition placeLetter (currentWordIndex : option nat) (wordIndex : nat)
    (position : Coord) (c : ascii) (letters : gmap Coord LetterEntry)
    : gmap Coord LetterEntry :=
  match letters !! position with
  | None =>
      <[position := mkEntry c position
                      (wordOpacity currentWordIndex wordIndex)
                      [wordIndex]]> letters
  | Some entry =>
      if decide (letter entry = SPACE) then
        <[position := mkEntry c position
                        (opacityMax (wordOpacity currentWordIndex wordIndex)
                                    (opacity entry))
                        (lettersBy entry ++ [wordIndex])]> letters
      else if decide (c = SPACE ∨ letter entry = c) then
        <[position := mkEntry (letter entry) position
                        (opacityMax (wordOpacity currentWordIndex wordIndex)
                                    (opacity entry))
                        (lettersBy entry ++ [wordIndex])]> letters
      else
        <[position := mkEntry CONFLICT position
                        (opacityMax (wordOpacity currentWordIndex wordIndex)
                                    (opacity entry))
                        (lettersBy entry ++ [wordIndex])]> letters
  end.

(** [for (let i = 0; i < word.length; i++)], entered at index [i] with the
    characters [cs] still to place. *)
Fixpoint placeWordFrom (currentWordIndex : option nat) (wordIndex : nat)
    (start : Coord) (direction : Direction) (i : nat) (cs : list ascii)
    (letters : gmap Coord LetterEntry) : gmap Coord LetterEntry :=
  match cs with
  | [] => letters
  | c :: cs' =>
      placeWordFrom currentWordIndex wordIndex start direction (S i) cs'
        (placeLetter currentWordIndex wordIndex
           (wordLetterPosition start direction (Z.of_nat i)) c letters)
  end.

Definition placeWord (currentWordIndex : option nat) (wordIndex : nat)
    (w : Word) (letters : gmap Coord LetterEntry) : gmap Coord LetterEntry :=
  placeWordFrom currentWordIndex wordIndex (start w) (direction w) 0
    (chars (word w)) letters.

(** [words.forEach(({ word, direction, start }, wordIndex) => ...)], entered
    at index [wordIndex]. *)
Fixpoint placeWordsFrom (currentWordIndex : option nat) (wordIndex : nat)
    (ws : list Word) (letters : gmap Coord LetterEntry)
    : gmap Coord LetterEntry :=
  match ws with
  | [] => letters
  | w :: ws' =>
      placeWordsFrom currentWordIndex (S wordIndex) ws'
        (placeWord currentWordIndex wordIndex w letters)
  end.

(** The map [letters] that [CreateCrossword] builds on every render. *)
Definition createLetters (currentWordIndex : option nat) (ws : list Word)
    : gmap Coord LetterEntry :=
  placeWordsFrom currentWordIndex 0 ws ∅.

(** The letter shown at a coordinate, if a block is there. *)
Definition letterAt (letters : gmap Coord LetterEntry) (p : Coord)
    : option ascii :=
  letter <$> letters !! p.

End Reconciler.

Export Reconciler.

(** ** Validity (authoring mode) *)

Module Validity.

(** [a[i] = v] on a JavaScript array: in range the slot is overwritten; out
    of range the array grows, the slots in between are holes. A hole of a
    [boolean[]] reads as [undefined], which is falsy: [hole] stands for it. *)
Definition arraySet {A} (hole : A) (i : nat) (v : A) (a : list A) : list A :=
  if decide (i < length a)%nat then <[i := v]> a
  else a ++ replicate (i - length a) hole ++ [v].

(** [words[i].word[j] === " "] for some [j] *)
Definition containsSpace (s : string) : bool :=
  existsb (fun c => bool_decide (c = SPACE)) (chars s).

(** The first loop of [CreateCrosswordMenu]: description, length, blanks. *)
Definition wordWellFormed (w : Word) : bool :=
  if decide (String.length (description w) = 0)%nat then false
  else if decide (String.length (word w) = 0)%nat then false
  else negb (containsSpace (word w)).

(** [lettersBy.forEach((i) => { wordValidity[i] = false; })] *)
Definition invalidateAll (lettersBy : list nat) (wordValidity : list bool)
    : list bool :=
  foldl (fun acc i => arraySet false i false acc) wordValidity lettersBy.

(** [for (const { letter, lettersBy } of letters.values())] *)
Definition invalidateConflicts (entries : list LetterEntry)
    (wordValidity : list bool) : list bool :=
  foldl (fun acc e =>
           if decide (letter e = CONFLICT) then invalidateAll (lettersBy e) acc
           else acc)
        wordValidity entries.

(** [letters.values()]. The listing of a [gmap] is not in the insertion
    order of the JavaScript [Map]; the loop over it only ever writes [false],
    so its result does not depend on the order. *)
Definition values (letters : gmap Coord LetterEntry) : list LetterEntry :=
  (map_to_list letters).*2.

(** The array [wordValidity] of [CreateCrosswordMenu]. *)
Definition wordValidity (ws : list Word) (letters : gmap Coord LetterEntry)
    : list bool :=
  invalidateConflicts (values letters) (map wordWellFormed ws).

(** [allowSave] of [CreateCrosswordMenu]. *)
Definition allowSave (c : Crossword) (letters : gmap Coord LetterEntry)
    : bool :=
  forallb id (take (length (words c)) (wordValidity (words c) letters))
  && negb (bool_decide (String.length (name c) = 0)%nat
           || bool_decide (length (words c) = 0)%nat).

End Validity.

Export Validity.

(** ** File check of [OpenCrossword] *)

Module Loader.

(** [s.charCodeAt(i)]: the code of the [i]-th character, [None] for the
    [NaN] that an index outside the string gives. *)
Definition charCodeAt (s : string) (i : nat) : option Z :=
  (fun c => Z.of_nat (nat_of_ascii c)) <$> chars s !! i.

(** [a < b] and [a > b] on numbers: false when [a] is [NaN]. *)
Definition numLt (a : option Z) (b : Z) : bool :=
  match a with Some x => x <? b | None => false end.

Definition numGt (a : option Z) (b : Z) : bool :=
  match a with Some x => x >? b | None => false end.

(** ["A".charCodeAt(0)] and ["Z".charCodeAt(0)] *)
Definition codeA : Z := 65.
Definition codeZ : Z := 90.

(** The one-character string [word[i]], given its character. *)
Definition charString (c : ascii) : string := String c EmptyString.

(** The inner loop of the check, entered at index [i] with the characters
    [cs] of the word still to visit; [None] is the early
    [setFileError("Invalid crossword"); return]. *)
Fixpoint checkWordFrom (start : Coord) (direction : Direction) (i : nat)
    (cs : list ascii) (letters : gmap Coord ascii)
    : option (gmap Coord ascii) :=
  match cs with
  | [] => Some letters
  | c :: cs' =>
      if numLt (charCodeAt (charString c) i) codeA
         || numGt (charCodeAt (charString c) i) codeZ
      then None
      else
        let position := wordLetterPosition start direction (Z.of_nat i) in
        match letters !! position with
        | None =>
            checkWordFrom start direction (S i) cs' (<[position := c]> letters)
        | Some entry =>
            if decide (entry ≠ c) then None
            else checkWordFrom start direction (S i) cs' letters
        end
  end.

Fixpoint checkWords (ws : list Word) (letters : gmap Coord ascii)
    : option (gmap Coord ascii) :=
  match ws with
  | [] => Some letters
  | w :: ws' =>
      match checkWordFrom (start w) (direction w) 0 (chars (word w)) letters with
      | None => None
      | Some letters' => checkWords ws' letters'
      end
  end.

(** The string lengths that [crosswordSchema] requires ([min(1)]); the rest
    of the shape is the type [Crossword]. *)
Definition schemaAccepts (c : Crossword) : bool :=
  bool_decide (1 ≤ String.length (name c))%nat
  && forallb (fun w => bool_decide (1 ≤ String.length (word w))%nat
                       && bool_decide (1 ≤ String.length (description w))%nat)
             (words c).

Inductive LoadOutcome :=
| Opened (c : Crossword)          (* [setFileError(""); onOpen(crossword)] *)
| Failed (fileError : string).    (* [setFileError(...)], [onOpen] not called *)

(** The handler of [OpenCrossword] on the parsed content of a file. *)
Definition openCrossword (c : Crossword) : LoadOutcome :=
  if schemaAccepts c then
    match checkWords (words c) ∅ with
    | Some _ => Opened c
    | None => Failed "Invalid crossword"
    end
  else Failed "Invalid file".

End Loader.

Export Loader.

(** ** Edit history engine: [createCrosswordReducer] *)

Inductive CreateCrosswordAction :=
| SetCrossword (crossword : Crossword)
| SetName (name : string)
| NewWord
| SelectWord (index : nat)
| DeleteWord (index : nat)
| SetOrbitCenter (position : Coord)
| ShowWordList
| SetStart (position : Coord)
| SetDirection (direction : Direction)
| SetWord (word : string)
| SetDescription (description : string)
| Drag (center : Coord)
| DragEnd (center : Coord)
| Undo
| Redo.

Inductive WordsChange :=
| AddedWord                                         (* type: "NewWord" *)
| DeletedWord (index : nat) (word : Word)           (* type: "DeleteWord" *)
| ChangeStart (start previousStart : Coord)
| ChangeDirection (direction previousDirection : Direction)
| ChangeWord (word previousWord : string)
| ChangeDescription (description previousDescription : string).

(** An entry of the history: [{ currentWordIndex, orbitCenter,
    crossword: { name, wordsChange } }]. *)
Record History := mkHistory {
  entryWordIndex : option nat;
  entryOrbitCenter : Coord;
  entryName : string;
  wordsChange : option WordsChange
}.

Record CreateCrosswordState := mkState {
  crossword : Crossword;
  currentWordIndex : option nat;
  orbitCenter : Coord;
  history : list History;
  historyIndex : nat
}.

Module HistoryEngine.

(** [{ ...w, start }], [{ ...w, direction }], [{ ...w, word }],
    [{ ...w, description }] *)
Definition withStart (s : Coord) (w : Word) : Word :=
  mkWord (word w) (direction w) s (description w).
Definition withDirection (d : Direction) (w : Word) : Word :=
  mkWord (word w) d (start w) (description w).
Definition withWord (t : string) (w : Word) : Word :=
  mkWord t (direction w) (start w) (description w).
Definition withDescription (t : string) (w : Word) : Word :=
  mkWord (word w) (direction w) (start w) t.

(** [[...ws.slice(0, i), f(ws[i]), ...ws.slice(i + 1)]] for the index
    [i = currentWordIndex as number]; [None] when [ws[i]] is [undefined]
    ([currentWordIndex] is [null] or out of range). *)
Definition replaceWordAt (i : option nat) (f : Word → Word) (ws : list Word)
    : option (list Word) :=
  i' ← i;
  w ← ws !! i';
  Some (take i' ws ++ f w :: drop (S i') ws).

(** [[...history.slice(0, historyIndex + 1), entry]] *)
Definition pushEntry (history : list History) (historyIndex : nat)
    (entry : History) : list History :=
  take (historyIndex + 1) history ++ [entry].

(** [(s <= o && o <= e) || (s >= o && o >= e)] *)
Definition between (s o e : Z) : bool :=
  (s <=? o) && (o <=? e) || (s >=? o) && (o >=? e).

(** The inner loop of [DeleteWord] over the three dimensions, for one
    remaining word: the orbit center lies between [start] and
    [endBlock = wordLetterPosition(start, direction, word.length - 1)]. *)
Definition coversOrbitCenter (orbitCenter : Coord) (w : Word) : bool :=
  let endBlock :=
    wordLetterPosition (start w) (direction w)
      (Z.of_nat (String.length (word w)) - 1) in
  let '(s0, s1, s2) := start w in
  let '(o0, o1, o2) := orbitCenter in
  let '(e0, e1, e2) := endBlock in
  between s0 o0 e0 && between s1 o1 e1 && between s2 o2 e2.

(** The outer loop of [DeleteWord], entered at index [i]: skip the deleted
    index, stop at the first word that covers the orbit center. *)
Fixpoint orbitCenterHasBlockFrom (index : nat) (orbitCenter : Coord)
    (i : nat) (ws : list Word) : bool :=
  match ws with
  | [] => false
  | w :: ws' =>
      if decide (i = index) then
        orbitCenterHasBlockFrom index orbitCenter (S i) ws'
      else if coversOrbitCenter orbitCenter w then true
      else orbitCenterHasBlockFrom index orbitCenter (S i) ws'
  end.

Definition orbitCenterHasBlock (index : nat) (orbitCenter : Coord)
    (ws : list Word) : bool :=
  orbitCenterHasBlockFrom index orbitCenter 0 ws.

(** The word that [NewWord] appends and that [Redo] appends again. *)
Definition emptyWordAt (p : Coord) : Word := mkWord "" X p "".

(** The inverse of a recorded change, applied by [Undo]; [i] is
    [history[historyIndex].currentWordIndex]. *)
Definition undoWordsChange (i : option nat) (change : option WordsChange)
    (ws : list Word) : option (list Word) :=
  match change with
  | None => Some ws
  | Some AddedWord => Some (take (length ws - 1) ws)
  | Some (DeletedWord index w) => Some (take index ws ++ w :: drop index ws)
  | Some (ChangeStart _ previousStart) =>
      replaceWordAt i (withStart previousStart) ws
  | Some (ChangeDirection _ previousDirection) =>
      replaceWordAt i (withDirection previousDirection) ws
  | Some (ChangeWord _ previousWord) =>
      replaceWordAt i (withWord previousWord) ws
  | Some (ChangeDescription _ previousDescription) =>
      replaceWordAt i (withDescription previousDescription) ws
  end.

(** A recorded change applied forward, by [Redo]; [i] and [orbitCenter]
    come from [history[historyIndex + 1]]. *)
Definition redoWordsChange (i : option nat) (orbitCenter : Coord)
    (change : option WordsChange) (ws : list Word) : option (list Word) :=
  match change with
  | None => Some ws
  | Some AddedWord => Some (ws ++ [emptyWordAt orbitCenter])
  | Some (DeletedWord index _) => Some (take index ws ++ drop (index + 1) ws)
  | Some (ChangeStart start _) => replaceWordAt i (withStart start) ws
  | Some (ChangeDirection direction _) =>
      replaceWordAt i (withDirection direction) ws
  | Some (ChangeWord word _) => replaceWordAt i (withWord word) ws
  | Some (ChangeDescription description _) =>
      replaceWordAt i (withDescription description) ws
  end.

Definition createCrosswordReducer (state : CreateCrosswordState)
    (action : CreateCrosswordAction) : option CreateCrosswordState :=
  let name := name (crossword state) in
  let words := words (crossword state) in
  let currentWordIndex := currentWordIndex state in
  let orbitCenter := orbitCenter state in
  let history := history state in
  let historyIndex := historyIndex state in
  match action with
  | SetCrossword c =>
      let '(mkCrossword actionName _) := c in
      Some (mkState c None origin [mkHistory None origin actionName None] 0)
  | SetName n =>
      Some (mkState (mkCrossword n words) currentWordIndex orbitCenter
              (pushEntry history historyIndex
                 (mkHistory currentWordIndex orbitCenter n None))
              (historyIndex + 1))
  | NewWord =>
      let newWordIndex := length words in
      Some (mkState (mkCrossword name (words ++ [emptyWordAt orbitCenter]))
              (Some newWordIndex) orbitCenter
              (pushEntry history historyIndex
                 (mkHistory (Some newWordIndex) orbitCenter name
                    (Some AddedWord)))
              (historyIndex + 1))
  | SelectWord index =>
      w ← words !! index;
      let centerBlockPosition :=
        wordLetterPosition (start w) (direction w)
          (centerBlockIndex (word w)) in
      Some (mkState (crossword state) (Some index) centerBlockPosition
              (pushEntry history historyIndex
                 (mkHistory (Some index) centerBlockPosition name None))
              (historyIndex + 1))
  | DeleteWord index =>
      (* [word: words[action.index]] is recorded in the history *)
      w ← words !! index;
      let newOrbitCenter :=
        if orbitCenterHasBlock index orbitCenter words then orbitCenter
        else origin in
      Some (mkState
              (mkCrossword name (take index words ++ drop (index + 1) words))
              currentWordIndex newOrbitCenter
              (pushEntry history historyIndex
                 (mkHistory currentWordIndex newOrbitCenter name
                    (Some (DeletedWord index w))))
              (historyIndex + 1))
  | SetOrbitCenter position =>
      Some (mkState (crossword state) currentWordIndex position
              history historyIndex)
  | ShowWordList =>
      Some (mkState (crossword state) None orbitCenter
              (pushEntry history historyIndex
                 (mkHistory None orbitCenter name None))
              (historyIndex + 1))
  | SetStart position =>
      i ← currentWordIndex;
      currentWord ← words !! i;
      let newOrbitCenter :=
        wordLetterPosition position (direction currentWord)
          (centerBlockIndex (word currentWord)) in
      newWords ← replaceWordAt currentWordIndex (withStart position) words;
      Some (mkState (mkCrossword name newWords) currentWordIndex
              newOrbitCenter
              (pushEntry history historyIndex
                 (mkHistory currentWordIndex newOrbitCenter name
                    (Some (ChangeStart position (start currentWord)))))
              (historyIndex + 1))
  | SetDirection d =>
      i ← currentWordIndex;
      currentWord ← words !! i;
      let newOrbitCenter :=
        wordLetterPosition (start currentWord) d
          (centerBlockIndex (word currentWord)) in
      newWords ← replaceWordAt currentWordIndex (withDirection d) words;
      Some (mkState (mkCrossword name newWords) currentWordIndex
              newOrbitCenter
              (pushEntry history historyIndex
                 (mkHistory currentWordIndex newOrbitCenter name
                    (Some (ChangeDirection d (direction currentWord)))))
              (historyIndex + 1))
  | SetWord t =>
      i ← currentWordIndex;
      currentWord ← words !! i;
      let newOrbitCenter :=
        wordLetterPosition (start currentWord) (direction currentWord)
          (centerBlockIndex t) in
      newWords ← replaceWordAt currentWordIndex (withWord t) words;
      Some (mkState (mkCrossword name newWords) currentWordIndex
              newOrbitCenter
              (pushEntry history historyIndex
                 (mkHistory currentWordIndex newOrbitCenter name
                    (Some (ChangeWord t (word currentWord)))))
              (historyIndex + 1))
  | SetDescription t =>
      i ← currentWordIndex;
      currentWord ← words !! i;
      newWords ← replaceWordAt currentWordIndex (withDescription t) words;
      Some (mkState (mkCrossword name newWords) currentWordIndex orbitCenter
              (pushEntry history historyIndex
                 (mkHistory currentWordIndex orbitCenter name
                    (Some (ChangeDescription t (description currentWord)))))
              (historyIndex + 1))
  | Drag center =>
      i ← currentWordIndex;
      currentWord ← words !! i;
      let newStart :=
        wordLetterPosition center (direction currentWord)
          (- centerBlockIndex (word currentWord)) in
      newWords ← replaceWordAt currentWordIndex (withStart newStart) words;
      Some (mkState (mkCrossword name newWords) currentWordIndex orbitCenter
              history historyIndex)
  | DragEnd center =>
      i ← currentWordIndex;
      currentWord ← words !! i;
      let previousStart :=
        wordLetterPosition orbitCenter (direction currentWord)
          (- centerBlockIndex (word currentWord)) in
      let newStart :=
        wordLetterPosition center (direction currentWord)
          (- centerBlockIndex (word currentWord)) in
      newWords ← replaceWordAt currentWordIndex (withStart newStart) words;
      Some (mkState (mkCrossword name newWords) currentWordIndex center
              (pushEntry history historyIndex
                 (mkHistory currentWordIndex center name
                    (Some (ChangeStart newStart previousStart))))
              (historyIndex + 1))
  | Undo =>
      if decide (historyIndex = 0)%nat then Some state
      else
        previous ← history !! (historyIndex - 1)%nat;
        current ← history !! historyIndex;
        newWords ← undoWordsChange (entryWordIndex current)
                      (wordsChange current) words;
        Some (mkState (mkCrossword (entryName previous) newWords)
                (entryWordIndex previous) (entryOrbitCenter previous)
                history (historyIndex - 1))
  | Redo =>
      if decide (Z.of_nat historyIndex = Z.of_nat (length history) - 1)
      then Some state
      else
        next ← history !! (historyIndex + 1)%nat;
        newWords ← redoWordsChange (entryWordIndex next)
                      (entryOrbitCenter next) (wordsChange next) words;
        Some (mkState (mkCrossword (entryName next) newWords)
                (entryWordIndex next) (entryOrbitCenter next)
                history (historyIndex + 1))
  end.

(** The state that [CreateCrossword] gives to [useReducer]. *)
Definition initialState : CreateCrosswordState :=
  mkState (mkCrossword "" []) None origin [mkHistory None origin "" None] 0.

(** The actions that append an entry to the history: the structural edits
    (new word, delete word, change of start, direction, text, description
    or name, end of a drag) and the two changes of selection. *)
Definition recordsHistory (action : CreateCrosswordAction) : bool :=
  match action with
  | SetName _ | NewWord | SelectWord _ | DeleteWord _ | ShowWordList
  | SetStart _ | SetDirection _ | SetWord _ | SetDescription _
  | DragEnd _ => true
  | SetCrossword _ | SetOrbitCenter _ | Drag _ | Undo | Redo => false
  end.

(** [SetCrossword] starts a new history of one entry. *)
Definition resetsHistory (action : CreateCrosswordAction) : bool :=
  match action with
  | SetCrossword _ => true
  | _ => false
  end.

(** Dispatching a list of actions, one after the other. *)
Fixpoint dispatchAll (state : CreateCrosswordState)
    (actions : list CreateCrosswordAction) : option CreateCrosswordState :=
  match actions with
  | [] => Some state
  | a :: rest =>
      state' ← createCrosswordReducer state a;
      dispatchAll state' rest
  end.

End HistoryEngine.

Export HistoryEngine.

(** ** Solving mode: [ViewCrossword] and [CrosswordMenu] *)

Module Solving.

(** The body of the first loop of [ViewCrossword]: a blank block for one
    letter position of an answer word. *)
Definition placeBlank (currentWordIndex : option nat) (wordIndex : nat)
    (position : Coord) (letters : gmap Coord LetterEntry)
    : gmap Coord LetterEntry :=
  let opacity :=
    match letters !! position with
    | Some entry =>
        opacityMax (wordOpacity currentWordIndex wordIndex) (opacity entry)
    | None => wordOpacity currentWordIndex wordIndex
    end in
  <[position := mkEntry SPACE position opacity []]> letters.

(** [for (let i = 0; i < word.length; i++)] of the first loop, entered at
    index [i] with [n] positions still to visit. *)
Fixpoint placeBlanksFrom (currentWordIndex : option nat) (wordIndex : nat)
    (start : Coord) (direction : Direction) (i n : nat)
    (letters : gmap Coord LetterEntry) : gmap Coord LetterEntry :=
  match n with
  | O => letters
  | S n' =>
      placeBlanksFrom currentWordIndex wordIndex start direction (S i) n'
        (placeBlank currentWordIndex wordIndex
           (wordLetterPosition start direction (Z.of_nat i)) letters)
  end.

Fixpoint answerPassFrom (currentWordIndex : option nat) (wordIndex : nat)
    (ws : list Word) (letters : gmap Coord LetterEntry)
    : gmap Coord LetterEntry :=
  match ws with
  | [] => letters
  | w :: ws' =>
      answerPassFrom currentWordIndex (S wordIndex) ws'
        (placeBlanksFrom currentWordIndex wordIndex (start w) (direction w)
           0 (String.length (word w)) letters)
  end.

(** The map after [crossword.words.forEach(...)]. *)
Definition answerPass (currentWordIndex : option nat) (c : Crossword)
    : gmap Coord LetterEntry :=
  answerPassFrom currentWordIndex 0 (words c) ∅.

(** The body of the second loop: [let entry = letters.get(positionKey)] is
    read without a guard, so [entry.letter] throws when there is no entry. *)
Definition placeGuessLetter (currentWordIndex : option nat) (wordIndex : nat)
    (position : Coord) (c : ascii) (letters : gmap Coord LetterEntry)
    : option (gmap Coord LetterEntry) :=
  entry ← letters !! position;
  let opacity :=
    opacityMax (wordOpacity currentWordIndex wordIndex) (opacity entry) in
  let lettersBy := lettersBy entry ++ [wordIndex] in
  if decide (letter entry = SPACE) then
    Some (<[position := mkEntry c position opacity lettersBy]> letters)
  else if decide (c = SPACE ∨ letter entry = c) then
    Some (<[position := mkEntry (letter entry) position opacity lettersBy]>
            letters)
  else
    Some (<[position := mkEntry CONFLICT position opacity lettersBy]> letters).

Fixpoint placeGuessFrom (currentWordIndex : option nat) (wordIndex : nat)
    (start : Coord) (direction : Direction) (i : nat) (cs : list ascii)
    (letters : gmap Coord LetterEntry) : option (gmap Coord LetterEntry) :=
  match cs with
  | [] => Some letters
  | c :: cs' =>
      letters' ← placeGuessLetter currentWordIndex wordIndex
                   (wordLetterPosition start direction (Z.of_nat i)) c letters;
      placeGuessFrom currentWordIndex wordIndex start direction (S i) cs'
        letters'
  end.

(** [words.forEach((word, wordIndex) => ...)], entered at index [wordIndex];
    [let { direction, start } = crossword.words[wordIndex]] throws when the
    crossword has no such word. *)
Fixpoint guessPassFrom (currentWordIndex : option nat) (c : Crossword)
    (wordIndex : nat) (guesses : list string)
    (letters : gmap Coord LetterEntry) : option (gmap Coord LetterEntry) :=
  match guesses with
  | [] => Some letters
  | g :: guesses' =>
      w ← words c !! wordIndex;
      letters' ← placeGuessFrom currentWordIndex wordIndex (start w)
                   (direction w) 0 (chars g) letters;
      guessPassFrom currentWordIndex c (S wordIndex) guesses' letters'
  end.

(** The map [letters] of [ViewCrossword]: the answer pass, then the guesses
    layered on top. *)
Definition viewLetters (currentWordIndex : option nat) (c : Crossword)
    (guesses : list string) : option (gmap Coord LetterEntry) :=
  guessPassFrom currentWordIndex c 0 guesses (answerPass currentWordIndex c).

(** [solved]: the loop over [crossword.words], entered at index [i];
    [crossword.words[i].word != words[i]] also holds when [words[i]] is
    [undefined]. *)
Fixpoint solvedFrom (guesses : list string) (i : nat) (ws : list Word)
    : bool :=
  match ws with
  | [] => true
  | w :: ws' =>
      if decide (guesses !! i ≠ Some (word w)) then false
      else solvedFrom guesses (S i) ws'
  end.

Definition solved (c : Crossword) (guesses : list string) : bool :=
  solvedFrom guesses 0 (words c).

(** [onlyContainsUpperCaseAlphabetsAndSpaces] *)
Definition onlyContainsUpperCaseAlphabetsAndSpaces (s : string) : bool :=
  forallb (fun c =>
             let code := Z.of_nat (nat_of_ascii c) in
             negb (((codeA >? code) || (code >? codeZ))
                   && negb (bool_decide (c = SPACE))))
          (chars s).

(** The [onChange] handler of the guess input, on the upper-cased [text]:
    the guess of the current word is replaced when it is not longer than the
    answer and holds only letters and spaces; otherwise the guesses stay. *)
Definition changeGuess (c : Crossword) (currentWordIndex : nat)
    (guesses : list string) (text : string) : option (list string) :=
  w ← words c !! currentWordIndex;
  if bool_decide (String.length text ≤ String.length (word w))%nat
     && onlyContainsUpperCaseAlphabetsAndSpaces text
  then Some (take currentWordIndex guesses
               ++ text :: drop (currentWordIndex + 1) guesses)
  else Some guesses.

(** [new Array(crossword.words.length).fill("")]: the guesses after a
    crossword is opened. *)
Definition initialGuesses (c : Crossword) : list string :=
  replicate (length (words c)) EmptyString.

End Solving.

Export Solving.

(** ** Solving mode: the menu *)

(** An entry of the map of [CrosswordMenu]: [{ letter, lettersBy }]. *)
Record MenuEntry := mkMenuEntry {
  menuLetter : ascii;
  menuLettersBy : list nat
}.

#[global] Instance MenuEntry_eq_dec : EqDecision MenuEntry.
Proof. solve_decision. Defined.

Module SolvingMenu.

(** The first loop of [CrosswordMenu]: a blank entry for every letter
    position of every answer word. *)
Fixpoint menuBlanksFrom (start : Coord) (direction : Direction) (i n : nat)
    (letters : gmap Coord MenuEntry) : gmap Coord MenuEntry :=
  match n with
  | O => letters
  | S n' =>
      menuBlanksFrom start direction (S i) n'
        (<[wordLetterPosition start direction (Z.of_nat i)
           := mkMenuEntry SPACE []]> letters)
  end.

Fixpoint menuAnswerPassFrom (ws : list Word) (letters : gmap Coord MenuEntry)
    : gmap Coord MenuEntry :=
  match ws with
  | [] => letters
  | w :: ws' =>
      menuAnswerPassFrom ws'
        (menuBlanksFrom (start w) (direction w) 0 (String.length (word w))
           letters)
  end.

(** The body of the second loop of [CrosswordMenu]; [entry.letter] is read
    without a guard, as in [ViewCrossword]. *)
Definition menuPlaceGuessLetter (wordIndex : nat) (position : Coord)
    (c : ascii) (letters : gmap Coord MenuEntry)
    : option (gmap Coord MenuEntry) :=
  entry ← letters !! position;
  let lettersBy := menuLettersBy entry ++ [wordIndex] in
  if decide (menuLetter entry = SPACE) then
    Some (<[position := mkMenuEntry c lettersBy]> letters)
  else if decide (c = SPACE ∨ menuLetter entry = c) then
    Some (<[position := mkMenuEntry (menuLetter entry) lettersBy]> letters)
  else
    Some (<[position := mkMenuEntry CONFLICT lettersBy]> letters).

Fixpoint menuPlaceGuessFrom (wordIndex : nat) (start : Coord)
    (direction : Direction) (i : nat) (cs : list ascii)
    (letters : gmap Coord MenuEntry) : option (gmap Coord MenuEntry) :=
  match cs with
  | [] => Some letters
  | c :: cs' =>
      letters' ← menuPlaceGuessLetter wordIndex
                   (wordLetterPosition start direction (Z.of_nat i)) c letters;
      menuPlaceGuessFrom wordIndex start direction (S i) cs' letters'
  end.

Fixpoint menuGuessPassFrom (c : Crossword) (wordIndex : nat)
    (guesses : list string) (letters : gmap Coord MenuEntry)
    : option (gmap Coord MenuEntry) :=
  match guesses with
  | [] => Some letters
  | g :: guesses' =>
      w ← words c !! wordIndex;
      letters' ← menuPlaceGuessFrom wordIndex (start w) (direction w) 0
                   (chars g) letters;
      menuGuessPassFrom c (S wordIndex) guesses' letters'
  end.

(** The map [letters] of [CrosswordMenu]. *)
Definition menuLetters (c : Crossword) (guesses : list string)
    : option (gmap Coord MenuEntry) :=
  menuGuessPassFrom c 0 guesses (menuAnswerPassFrom (words c) ∅).

(** [for (const { letter, lettersBy } of letters.values())] of
    [CrosswordMenu]: the guesses on a conflicted coordinate are invalid. *)
Definition menuInvalidateConflicts (entries : list MenuEntry)
    (wordValidity : list bool) : list bool :=
  foldl (fun acc e =>
           if decide (menuLetter e = CONFLICT)
           then invalidateAll (menuLettersBy e) acc
           else acc)
        wordValidity entries.

(** The loop [for (let i = 0; i < words.length; i++)] of [CrosswordMenu],
    entered at index [i] with the guesses [gs] still to visit: a guess of
    another length than its answer, or with a blank, is invalid.
    [crossword.words[i].word] throws when the crossword has no word [i]. *)
Fixpoint checkGuessesFrom (c : Crossword) (i : nat) (gs : list string)
    (wordValidity : list bool) : option (list bool) :=
  match gs with
  | [] => Some wordValidity
  | g :: gs' =>
      w ← words c !! i;
      if decide (String.length g ≠ String.length (word w))
      then checkGuessesFrom c (S i) gs' (arraySet false i false wordValidity)
      else if containsSpace g
      then checkGuessesFrom c (S i) gs' (arraySet false i false wordValidity)
      else checkGuessesFrom c (S i) gs' wordValidity
  end.

(** The array [wordValidity] of [CrosswordMenu]. *)
Definition guessValidity (c : Crossword) (guesses : list string)
    : option (list bool) :=
  letters ← menuLetters c guesses;
  checkGuessesFrom c 0 guesses
    (menuInvalidateConflicts ((map_to_list letters).*2)
       (replicate (length guesses) true)).

(** One element of [containsOrbitCenter]: the test of the three dimensions,
    left at the first dimension that fails. *)
Definition containsOrbitCenterWord (orbitCenter : Coord) (w : Word) : bool :=
  let endBlock :=
    wordLetterPosition (start w) (direction w)
      (Z.of_nat (String.length (word w)) - 1) in
  let '(s0, s1, s2) := start w in
  let '(o0, o1, o2) := orbitCenter in
  let '(e0, e1, e2) := endBlock in
  if negb (between s0 o0 e0) then false
  else if negb (between s1 o1 e1) then false
  else if negb (between s2 o2 e2) then false
  else true.

(** [containsOrbitCenter] of [CrosswordMenu]. *)
Definition containsOrbitCenter (c : Crossword) (orbitCenter : Coord)
    : list bool :=
  map (containsOrbitCenterWord orbitCenter) (words c).

(** A sequence of inputs into the guess field: each the index of the
    selected word and the upper-cased text of the field. *)
Fixpoint typeGuesses (c : Crossword) (guesses : list string)
    (inputs : list (nat * string)) : option (list string) :=
  match inputs with
  | [] => Some guesses
  | (i, text) :: rest =>
      guesses' ← changeGuess c i guesses text;
      typeGuesses c guesses' rest
  end.

(** The words of the crossword with the guesses as their texts. *)
Definition guessWords (c : Crossword) (guesses : list string) : list Word :=
  zip_with (fun w g => withWord g w) (words c) guesses.

(** What [ViewCrossword] keeps of an entry that [CrosswordMenu] has too. *)
Definition menuEntryOf (e : LetterEntry) : MenuEntry :=
  mkMenuEntry (letter e) (lettersBy e).

End SolvingMenu.

Export SolvingMenu.

(** ** Vocabulary of the statements *)

Module Lattice.

(** The letter blocks of one word from index [i] on, [cs] being the
    characters from that index: coordinate and character, in order. *)
Fixpoint placementsFrom (start : Coord) (direction : Direction) (i : nat)
    (cs : list ascii) : list (Coord * ascii) :=
  match cs with
  | [] => []
  | c :: cs' =>
      (wordLetterPosition start direction (Z.of_nat i), c)
        :: placementsFrom start direction (S i) cs'
  end.

Definition wordPlacements (w : Word) : list (Coord * ascii) :=
  placementsFrom (start w) (direction w) 0 (chars (word w)).

(** The characters of a list of letter blocks that lie at [p]. *)
Definition atCoord (p : Coord) (l : list (Coord * ascii)) : list ascii :=
  (filter (fun pc => pc.1 = p) l).*2.

(** The characters that the words of a list place at [p], in the order in
    which the reconciler meets them. *)
Definition lettersPlacedAt (ws : list Word) (p : Coord) : list ascii :=
  atCoord p (ws ≫= wordPlacements).

(** Word [i] of [ws] places character [c], its [k]-th, at [p]. *)
Definition placesAt (ws : list Word) (i k : nat) (c : ascii) (p : Coord)
    : Prop :=
  ∃ w, ws !! i = Some w ∧ chars (word w) !! k = Some c
       ∧ wordLetterPosition (start w) (direction w) (Z.of_nat k) = p.

(** Word index [i] is in the contributor list of the entry at [p]. *)
Definition contributesAt (letters : gmap Coord LetterEntry) (p : Coord)
    (i : nat) : Prop :=
  ∃ e, letters !! p = Some e ∧ i ∈ lettersBy e.

(** Entry [e] describes state [s]: it carries the selection, the focus and
    the name of [s], and undoing its change on the words of [s] and applying
    it again gives the words of [s] back. *)
Definition recordedBy (s : CreateCrosswordState) (e : History) : Prop :=
  entryWordIndex e = currentWordIndex s
  ∧ entryOrbitCenter e = orbitCenter s
  ∧ entryName e = name (crossword s)
  ∧ ∃ u, undoWordsChange (entryWordIndex e) (wordsChange e)
           (words (crossword s)) = Some u
         ∧ redoWordsChange (entryWordIndex e) (entryOrbitCenter e)
             (wordsChange e) u = Some (words (crossword s)).

(** The cursor points at an entry of the history. *)
Definition cursorOk (s : CreateCrosswordState) : Prop :=
  (historyIndex s < length (history s))%nat.

(** [Undo] once, then [Redo] once. *)
Definition undoThenRedo (s : CreateCrosswordState)
    : option CreateCrosswordState :=
  u ← createCrosswordReducer s Undo;
  createCrosswordReducer u Redo.

(** [m'] has an entry wherever [m] has one. *)
Definition covers (m m' : gmap Coord LetterEntry) : Prop :=
  ∀ q : Coord, is_Some (m !! q) → is_Some (m' !! q).

(** Every guess has an answer word at its index and is not longer than it. *)
Definition guessesFit (c : Crossword) (guesses : list string) : Prop :=
  ∀ i g, guesses !! i = Some g →
         ∃ w, words c !! i = Some w
              ∧ (String.length g ≤ String.length (word w))%nat.

(** The coordinates of the letter blocks of a word. *)
Definition inSpan (w : Word) (p : Coord) : Prop :=
  ∃ k : nat, (k < String.length (word w))%nat
             ∧ wordLetterPosition (start w) (direction w) (Z.of_nat k) = p.

(** What the four branches of the reconciler do to the stored letter when
    character [c] arrives. *)
Definition resolve (stored : option ascii) (c : ascii) : option ascii :=
  match stored with
  | None => Some c
  | Some l =>
      if decide (l = SPACE) then Some c
      else if decide (c = SPACE ∨ l = c) then Some l
      else Some CONFLICT
  end.

End Lattice.

Export Lattice.

(** ** Further vocabulary *)

Module Blocks.

(** What every entry of the map satisfies while the reconciler runs: it
    stores its own key, it has a contributor, and it is opaque exactly when
    no word is selected or the selected word is among its contributors. *)
Definition entriesOk (cwi : option nat) (m : gmap Coord LetterEntry) : Prop :=
  ∀ (p : Coord) (e : LetterEntry), m !! p = Some e →
    position e = p ∧ lettersBy e ≠ []
    ∧ (opacity e = Opaque1
       ↔ cwi = None ∨ ∃ i, i ∈ lettersBy e ∧ cwi = Some i).

(** The character is one of A, ..., Z. *)
Definition isUpperCase (c : ascii) : Prop :=
  codeA ≤ Z.of_nat (nat_of_ascii c) ∧ Z.of_nat (nat_of_ascii c) ≤ codeZ.

(** The first character of the word, if it has one, is one of A, ..., Z. *)
Definition firstLetterOk (w : Word) : Prop :=
  ∀ ch, chars (word w) !! 0%nat = Some ch → isUpperCase ch.

(** No two letter blocks of the words lie at one coordinate with different
    characters. *)
Definition placementsAgree (ws : list Word) : Prop :=
  ∀ i1 k1 a i2 k2 b p,
    placesAt ws i1 k1 a p → placesAt ws i2 k2 b p → a = b.

(** The map of the file check holds exactly the letter blocks of [l]. *)
Definition represents (m : gmap Coord ascii) (l : list (Coord * ascii))
    : Prop :=
  ∀ q c, m !! q = Some c ↔ (q, c) ∈ l.

(** Two letter blocks of [l] lie at one coordinate with different
    characters. *)
Definition clashes (l : list (Coord * ascii)) : Prop :=
  ∃ q a b, (q, a) ∈ l ∧ (q, b) ∈ l ∧ a ≠ b.

(** The history entry under the cursor carries the name, the selection and
    the orbit center of the state. *)
Definition synced (s : CreateCrosswordState) : Prop :=
  ∃ h, history s !! historyIndex s = Some h
       ∧ entryName h = name (crossword s)
       ∧ entryWordIndex h = currentWordIndex s
       ∧ entryOrbitCenter h = orbitCenter s.

(** The center block of a word: [wordLetterPosition(start, direction,
    Math.floor(word.length / 2))]. *)
Definition centerBlock (w : Word) : Coord :=
  wordLetterPosition (start w) (direction w) (centerBlockIndex (word w)).

End Blocks.

Export Blocks.

(** ** The actions that the editor's interface dispatches *)

Module Interface.











End Interface.

Export Interface.

(** * Geometry *)

Section GeometryFacts.




Lemma wordLetterPosition_inj start direction i j :
  wordLetterPosition start direction i = wordLetterPosition start direction j →
  i = j.
Proof.
  destruct start as [[s0 s1] s2], direction; simpl; intros H;
    injection H; intros; lia.
Qed.


End GeometryFacts.

(** * Lattice reconciler *)

Section ReconcilerFacts.

Variable cwi : option nat.

(** ** One character arrives *)

Lemma letterAt_placeLetter_same (idx : nat) (p : Coord) (c : ascii)
    (m : gmap Coord LetterEntry) :
  letterAt (placeLetter cwi idx p c m) p = resolve (letterAt m p) c.
Proof.
  unfold letterAt, placeLetter, resolve.
  destruct (m !! p) as [e|] eqn:He; simpl.
  - repeat case_decide; by rewrite lookup_insert_eq.
  - by rewrite lookup_insert_eq.
Qed.

Lemma lookup_placeLetter_other (idx : nat) (p q : Coord) (c : ascii)
    (m : gmap Coord LetterEntry) :
  p ≠ q → placeLetter cwi idx p c m !! q = m !! q.
Proof.
  intros Hne. unfold placeLetter.
  destruct (m !! p) as [e|]; repeat case_decide;
    by rewrite lookup_insert_ne.
Qed.

Lemma letterAt_placeLetter (idx : nat) (p q : Coord) (c : ascii)
    (m : gmap Coord LetterEntry) :
  letterAt (placeLetter cwi idx p c m) q
  = if decide (p = q) then resolve (letterAt m q) c else letterAt m q.
Proof.
  case_decide as Hpq.
  - subst q. apply letterAt_placeLetter_same.
  - unfold letterAt. by rewrite lookup_placeLetter_other.
Qed.

(** ** The letter at a coordinate is a fold over the characters placed there *)

Lemma atCoord_cons p q c l :
  atCoord p ((q, c) :: l)
  = if decide (q = p) then c :: atCoord p l else atCoord p l.
Proof.
  unfold atCoord. rewrite filter_cons. simpl. by case_decide.
Qed.

Lemma atCoord_app p l1 l2 : atCoord p (l1 ++ l2) = atCoord p l1 ++ atCoord p l2.
Proof. unfold atCoord. by rewrite filter_app, fmap_app. Qed.

Lemma letterAt_placeWordFrom idx st d cs : ∀ i (m : gmap Coord LetterEntry) p,
  letterAt (placeWordFrom cwi idx st d i cs m) p
  = foldl resolve (letterAt m p) (atCoord p (placementsFrom st d i cs)).
Proof.
  induction cs as [|c cs IH]; intros i m p; simpl; [done|].
  rewrite IH, atCoord_cons, letterAt_placeLetter.
  by case_decide.
Qed.

Lemma letterAt_placeWordsFrom ws : ∀ idx (m : gmap Coord LetterEntry) p,
  letterAt (placeWordsFrom cwi idx ws m) p
  = foldl resolve (letterAt m p) (lettersPlacedAt ws p).
Proof.
  induction ws as [|w ws IH]; intros idx m p; simpl; [done|].
  unfold lettersPlacedAt in *. rewrite IH, bind_cons, atCoord_app, foldl_app.
  unfold placeWord. by rewrite letterAt_placeWordFrom.
Qed.

Lemma letterAt_createLetters ws p :
  letterAt (createLetters cwi ws) p = foldl resolve None (lettersPlacedAt ws p).
Proof.
  unfold createLetters. rewrite letterAt_placeWordsFrom.
  unfold letterAt. by rewrite lookup_empty.
Qed.

(** ** Which characters are placed at a coordinate *)

Lemma elem_of_placementsFrom st d cs : ∀ i k c,
  cs !! k = Some c →
  (wordLetterPosition st d (Z.of_nat (i + k)), c) ∈ placementsFrom st d i cs.
Proof.
  induction cs as [|x cs IH]; intros i k c Hk; [done|].
  destruct k as [|k]; simpl in *.
  - injection Hk as ->. rewrite Nat.add_0_r. apply elem_of_cons; by left.
  - apply elem_of_cons; right.
    replace (i + S k)%nat with (S i + k)%nat by lia. by apply IH.
Qed.

Lemma placesAt_lettersPlacedAt ws i k c p :
  placesAt ws i k c p → c ∈ lettersPlacedAt ws p.
Proof.
  intros (w & Hw & Hc & Hp).
  unfold lettersPlacedAt, atCoord.
  apply list_elem_of_fmap. exists (p, c). split; [done|].
  apply list_elem_of_filter. split; [done|].
  apply list_elem_of_bind. exists w. split.
  - subst p. apply (elem_of_placementsFrom _ _ _ 0%nat k c Hc).
  - by eapply list_elem_of_lookup_2.
Qed.

(** ** The fold: conflicts *)

Lemma resolve_conflict x : resolve (Some CONFLICT) x = Some CONFLICT.
Proof.
  unfold resolve. rewrite decide_False by done. by case_decide.
Qed.

Lemma resolve_keeps a x :
  a ≠ SPACE →
  resolve (Some a) x = Some a ∨ resolve (Some a) x = Some CONFLICT.
Proof.
  intros Ha. unfold resolve. rewrite decide_False by done.
  case_decide; [by left | by right].
Qed.

Lemma resolve_arrives s a :
  a ≠ SPACE → resolve s a = Some a ∨ resolve s a = Some CONFLICT.
Proof.
  intros Ha. destruct s as [l|]; [|by left]. unfold resolve.
  destruct (decide (l = SPACE)); [by left|].
  destruct (decide (a = SPACE ∨ l = a)) as [[?| ->]|]; [done|by left|by right].
Qed.

Lemma foldl_resolve_conflict l : foldl resolve (Some CONFLICT) l = Some CONFLICT.
Proof.
  induction l as [|x l IH]; cbn [foldl]; [done|].
  by rewrite resolve_conflict.
Qed.

Lemma foldl_resolve_keeps a l :
  a ≠ SPACE →
  foldl resolve (Some a) l = Some a ∨ foldl resolve (Some a) l = Some CONFLICT.
Proof.
  intros Ha. induction l as [|x l IH]; cbn [foldl]; [by left|].
  destruct (resolve_keeps a x Ha) as [-> | ->]; [done|].
  right. apply foldl_resolve_conflict.
Qed.

Lemma foldl_resolve_seen a l : ∀ s,
  a ∈ l → a ≠ SPACE →
  foldl resolve s l = Some a ∨ foldl resolve s l = Some CONFLICT.
Proof.
  induction l as [|x l IH]; intros s Hin Ha; [by apply elem_of_nil in Hin|].
  cbn [foldl]. apply elem_of_cons in Hin as [<- | Hin]; [|by apply IH].
  destruct (resolve_arrives s a Ha) as [-> | ->].
  - by apply foldl_resolve_keeps.
  - right. apply foldl_resolve_conflict.
Qed.

Lemma foldl_resolve_two_letters a b l s :
  a ∈ l → b ∈ l → a ≠ SPACE → b ≠ SPACE → a ≠ b →
  foldl resolve s l = Some CONFLICT.
Proof.
  intros Ha Hb Hna Hnb Hab.
  destruct (foldl_resolve_seen a l s Ha Hna) as [H1 | H1]; [|done].
  destruct (foldl_resolve_seen b l s Hb Hnb) as [H2 | H2]; [|done].
  congruence.
Qed.

End ReconcilerFacts.

(** ** Contributor lists *)

Section Contributors.

Variable cwi : option nat.

Lemma placeLetter_contributes (idx : nat) (p : Coord) (c : ascii)
    (m : gmap Coord LetterEntry) :
  contributesAt (placeLetter cwi idx p c m) p idx.
Proof.
  unfold contributesAt, placeLetter.
  destruct (m !! p) as [e|]; repeat case_decide;
    (eexists; split; [apply lookup_insert_eq|]); simpl;
    rewrite ?elem_of_app, ?list_elem_of_singleton; auto.
Qed.

Lemma placeLetter_contributes_mono (idx : nat) (p q : Coord) (c : ascii)
    (m : gmap Coord LetterEntry) (i : nat) :
  contributesAt m q i → contributesAt (placeLetter cwi idx p c m) q i.
Proof.
  intros (e & He & Hi). destruct (decide (p = q)) as [->|Hne].
  - unfold contributesAt, placeLetter. rewrite He.
    repeat case_decide; (eexists; split; [apply lookup_insert_eq|]); simpl;
      apply elem_of_app; by left.
  - exists e. by rewrite lookup_placeLetter_other.
Qed.

Lemma placeWordFrom_contributes_mono idx st d cs :
  ∀ i (m : gmap Coord LetterEntry) q j,
  contributesAt m q j → contributesAt (placeWordFrom cwi idx st d i cs m) q j.
Proof.
  induction cs as [|c cs IH]; intros i m q j H; simpl; [done|].
  by apply IH, placeLetter_contributes_mono.
Qed.

Lemma placeWordFrom_contributes idx st d cs :
  ∀ i (m : gmap Coord LetterEntry) k c,
  cs !! k = Some c →
  contributesAt (placeWordFrom cwi idx st d i cs m)
    (wordLetterPosition st d (Z.of_nat (i + k))) idx.
Proof.
  induction cs as [|x cs IH]; intros i m k c Hk; [done|].
  destruct k as [|k]; simpl in *.
  - rewrite Nat.add_0_r.
    apply placeWordFrom_contributes_mono, placeLetter_contributes.
  - replace (i + S k)%nat with (S i + k)%nat by lia. by eapply IH.
Qed.

Lemma placeWordsFrom_contributes_mono ws :
  ∀ idx (m : gmap Coord LetterEntry) q j,
  contributesAt m q j → contributesAt (placeWordsFrom cwi idx ws m) q j.
Proof.
  induction ws as [|w ws IH]; intros idx m q j H; simpl; [done|].
  by apply IH, placeWordFrom_contributes_mono.
Qed.

Lemma placeWordsFrom_contributes ws :
  ∀ idx (m : gmap Coord LetterEntry) i w k c,
  ws !! i = Some w → chars (word w) !! k = Some c →
  contributesAt (placeWordsFrom cwi idx ws m)
    (wordLetterPosition (start w) (direction w) (Z.of_nat k)) (idx + i).
Proof.
  induction ws as [|x ws IH]; intros idx m i w k c Hi Hk; [done|].
  destruct i as [|i]; simpl in *.
  - injection Hi as ->. rewrite Nat.add_0_r.
    apply placeWordsFrom_contributes_mono.
    by apply (placeWordFrom_contributes _ _ _ _ 0%nat _ k c).
  - replace (idx + S i)%nat with (S idx + i)%nat by lia. by eapply IH.
Qed.

Lemma createLetters_contributes ws i k c p :
  placesAt ws i k c p → contributesAt (createLetters cwi ws) p i.
Proof.
  intros (w & Hw & Hc & <-).
  by apply (placeWordsFrom_contributes ws 0%nat ∅ i w k c).
Qed.

End Contributors.

(** * Validity *)

Section ValidityFacts.

Lemma arraySet_false_same i (a : list bool) :
  arraySet false i false a !! i = Some false.
Proof.
  unfold arraySet. case_decide as Hi.
  - by apply list_lookup_insert_eq.
  - rewrite lookup_app_r by lia.
    rewrite lookup_app_r by (rewrite length_replicate; lia).
    rewrite length_replicate. by rewrite Nat.sub_diag.
Qed.

Lemma arraySet_false_keeps i j (a : list bool) :
  a !! j = Some false → arraySet false i false a !! j = Some false.
Proof.
  intros Hj. pose proof (lookup_lt_Some _ _ _ Hj) as Hlt.
  unfold arraySet. case_decide as Hi.
  - destruct (decide (i = j)) as [->|Hne].
    + by apply list_lookup_insert_eq.
    + by rewrite list_lookup_insert_ne.
  - by rewrite lookup_app_l.
Qed.

Lemma invalidateAll_keeps l : ∀ (a : list bool) j,
  a !! j = Some false → invalidateAll l a !! j = Some false.
Proof.
  unfold invalidateAll.
  induction l as [|i l IH]; intros a j Hj; simpl; [done|].
  by apply IH, arraySet_false_keeps.
Qed.

Lemma invalidateAll_sets l : ∀ (a : list bool) i,
  i ∈ l → invalidateAll l a !! i = Some false.
Proof.
  induction l as [|x l IH]; intros a i Hi; [by apply elem_of_nil in Hi|].
  apply elem_of_cons in Hi as [<- | Hi].
  - apply (invalidateAll_keeps l), arraySet_false_same.
  - by apply IH.
Qed.

Lemma invalidateConflicts_keeps es : ∀ (a : list bool) j,
  a !! j = Some false → invalidateConflicts es a !! j = Some false.
Proof.
  unfold invalidateConflicts.
  induction es as [|e es IH]; intros a j Hj; simpl; [done|].
  apply IH. case_decide; [by apply invalidateAll_keeps | done].
Qed.

Lemma invalidateConflicts_sets es : ∀ (a : list bool) e i,
  e ∈ es → letter e = CONFLICT → i ∈ lettersBy e →
  invalidateConflicts es a !! i = Some false.
Proof.
  induction es as [|x es IH]; intros a e i He Hl Hi;
    [by apply elem_of_nil in He|].
  apply elem_of_cons in He as [<- | He]; [|by eapply IH].
  unfold invalidateConflicts. simpl. rewrite decide_True by done.
  apply (invalidateConflicts_keeps es). by apply invalidateAll_sets.
Qed.

Lemma arraySet_false_lookup i j (a : list bool) b :
  a !! j = Some b →
  arraySet false i false a !! j = Some (b && negb (bool_decide (i = j))).
Proof.
  intros Hj. pose proof (lookup_lt_Some _ _ _ Hj) as Hlt.
  unfold arraySet. case_decide as Hi.
  - destruct (decide (i = j)) as [->|Hne].
    + rewrite list_lookup_insert_eq by done.
      by rewrite bool_decide_eq_true_2, andb_false_r.
    + rewrite list_lookup_insert_ne by done.
      by rewrite bool_decide_eq_false_2, andb_true_r.
  - rewrite lookup_app_l by done.
    rewrite bool_decide_eq_false_2 by lia. by rewrite andb_true_r.
Qed.

Lemma invalidateAll_lookup l : ∀ (a : list bool) j b,
  a !! j = Some b →
  invalidateAll l a !! j = Some (b && negb (bool_decide (j ∈ l))).
Proof.
  unfold invalidateAll.
  induction l as [|i l IH]; intros a j b Hj; cbn [foldl].
  - rewrite bool_decide_eq_false_2 by apply not_elem_of_nil.
    by rewrite andb_true_r.
  - rewrite (IH _ j _ (arraySet_false_lookup i j a b Hj)).
    f_equal. rewrite <- andb_assoc. f_equal.
    destruct (decide (i = j)) as [->|Hne].
    + rewrite (bool_decide_eq_true_2 (j = j)) by done.
      rewrite (bool_decide_eq_true_2 (j ∈ j :: l)) by (apply elem_of_cons; by left).
      done.
    + rewrite (bool_decide_eq_false_2 (i = j)) by done. simpl.
      f_equal. apply bool_decide_ext. rewrite elem_of_cons.
      intuition congruence.
Qed.

(** The result of the loop over the entries depends on which entries there
    are, not on the order in which they are visited. *)
Lemma invalidateConflicts_lookup es : ∀ (a : list bool) j b,
  a !! j = Some b →
  invalidateConflicts es a !! j
  = Some (b && negb (existsb (fun e => bool_decide (letter e = CONFLICT)
                                       && bool_decide (j ∈ lettersBy e)) es)).
Proof.
  unfold invalidateConflicts.
  induction es as [|e es IH]; intros a j b Hj; cbn [foldl existsb].
  - by rewrite andb_true_r.
  - case_decide as He.
    + rewrite (IH _ j _ (invalidateAll_lookup (lettersBy e) a j b Hj)).
      rewrite (bool_decide_eq_true_2 _ He). simpl.
      by rewrite negb_orb, andb_assoc.
    + rewrite (IH _ j _ Hj). by rewrite (bool_decide_eq_false_2 _ He).
Qed.

(** The validity of a word, as the menu computes it: the word is well
    formed and contributes to no conflicted coordinate. *)
Lemma wordValidity_true (ws : list Word) (m : gmap Coord LetterEntry)
    (i : nat) (w : Word) :
  ws !! i = Some w →
  wordValidity ws m !! i = Some true
  ↔ wordWellFormed w = true
    ∧ ∀ (p : Coord) (e : LetterEntry),
        m !! p = Some e → letter e = CONFLICT → i ∉ lettersBy e.
Proof.
  intros Hw. unfold wordValidity.
  rewrite (invalidateConflicts_lookup _ _ i (wordWellFormed w))
    by (by rewrite list_lookup_fmap, Hw).
  split.
  - intros [= H]. apply andb_true_iff in H as [Hwf Hnone].
    split; [done|]. intros p e Hm Hl Hi.
    apply negb_true_iff, not_true_iff_false in Hnone. apply Hnone.
    apply existsb_exists. exists e. split.
    + apply list_elem_of_In. unfold values. apply list_elem_of_fmap.
      exists (p, e). split; [done|]. by apply elem_of_map_to_list.
    + by rewrite !bool_decide_eq_true_2.
  - intros [Hwf Hnone]. f_equal. rewrite Hwf. simpl.
    apply negb_true_iff, not_true_iff_false. intros Hex.
    apply existsb_exists in Hex as (e & He & Hb).
    apply list_elem_of_In in He. unfold values in He.
    apply list_elem_of_fmap in He as ([p e'] & -> & Hpe).
    apply elem_of_map_to_list in Hpe.
    apply andb_true_iff in Hb as [Hl Hi].
    apply bool_decide_eq_true in Hl, Hi. by eapply Hnone.
Qed.

Lemma elem_of_values (m : gmap Coord LetterEntry) (p : Coord)
    (e : LetterEntry) :
  m !! p = Some e → e ∈ values m.
Proof.
  intros H. unfold values. apply list_elem_of_fmap. exists (p, e).
  split; [done|]. by apply elem_of_map_to_list.
Qed.

Lemma wordValidity_conflict (ws : list Word) (m : gmap Coord LetterEntry)
    (p : Coord) (e : LetterEntry) (i : nat) :
  m !! p = Some e → letter e = CONFLICT → i ∈ lettersBy e →
  wordValidity ws m !! i = Some false.
Proof.
  intros Hm Hl Hi. unfold wordValidity.
  eapply invalidateConflicts_sets; eauto using elem_of_values.
Qed.

End ValidityFacts.

Section ConflictClaims.

Variable cwi : option nat.

(** C1. Whenever two words of a list place differing non-blank letters at
    the same coordinate, the reconciled letter there is the conflict marker,
    every word index in the contributor list of that coordinate is marked
    invalid by the validity computation of the authoring menu, and both
    words are in that list, so both are invalid. *)
Theorem conflict_marks_every_contributor_invalid
    (ws : list Word) (i1 i2 k1 k2 : nat) (a b : ascii) (p : Coord) :
  placesAt ws i1 k1 a p → placesAt ws i2 k2 b p →
  a ≠ SPACE → b ≠ SPACE → a ≠ b →
  ∃ e, createLetters cwi ws !! p = Some e
       ∧ letter e = CONFLICT
       ∧ (∀ i, i ∈ lettersBy e →
               wordValidity ws (createLetters cwi ws) !! i = Some false)
       ∧ i1 ∈ lettersBy e ∧ i2 ∈ lettersBy e
       ∧ wordValidity ws (createLetters cwi ws) !! i1 = Some false
       ∧ wordValidity ws (createLetters cwi ws) !! i2 = Some false.
Proof.
  intros H1 H2 Ha Hb Hab.
  destruct (createLetters_contributes cwi ws i1 k1 a p H1) as (e & He & Hi1).
  destruct (createLetters_contributes cwi ws i2 k2 b p H2) as (e' & He' & Hi2).
  assert (e' = e) as -> by congruence.
  assert (letter e = CONFLICT) as Hl.
  { pose proof (letterAt_createLetters cwi ws p) as Hfold.
    rewrite (foldl_resolve_two_letters a b) in Hfold
      by eauto using placesAt_lettersPlacedAt.
    unfold letterAt in Hfold. rewrite He in Hfold. by injection Hfold. }
  exists e. split_and!; eauto using wordValidity_conflict.
Qed.

End ConflictClaims.

Section OrderIndependence.

Lemma resolve_comm s x y :
  resolve (resolve s x) y = resolve (resolve s y) x.
Proof.
  assert (CONFLICT ≠ SPACE) as Hq by done.
  destruct s as [l|]; unfold resolve;
    repeat (case_decide; simplify_eq; try tauto; try congruence);
    intuition congruence.
Qed.

Lemma foldl_resolve_Permutation l l' :
  l ≡ₚ l' → ∀ s, foldl resolve s l = foldl resolve s l'.
Proof.
  induction 1 as [|x l l' _ IH|x y l|l l' l'' _ IH1 _ IH2]; intros s;
    cbn [foldl].
  - done.
  - apply IH.
  - by rewrite resolve_comm.
  - by rewrite IH1.
Qed.

Lemma lettersPlacedAt_Permutation ws ws' p :
  ws ≡ₚ ws' → lettersPlacedAt ws p ≡ₚ lettersPlacedAt ws' p.
Proof.
  intros H. unfold lettersPlacedAt, atCoord. by rewrite H.
Qed.

(** C3. The letter that the reconciler resolves at a coordinate is a
    function of the word list alone, and it is the same for every
    permutation of the word list, whichever word is selected: the mapping
    from coordinate to resolved letter, conflict marker included, does not
    depend on the order of the words. *)
Theorem reconciled_letters_order_independent
    (cwi cwi' : option nat) (ws ws' : list Word) :
  Permutation ws ws' →
  ∀ p, letterAt (createLetters cwi ws) p = letterAt (createLetters cwi' ws') p.
Proof.
  intros H p. rewrite !letterAt_createLetters.
  by apply foldl_resolve_Permutation, lettersPlacedAt_Permutation.
Qed.

End OrderIndependence.

Section BlankTransparency.

Lemma foldl_resolve_same_letter c l :
  c ≠ SPACE → (∀ x, x ∈ l → x = SPACE ∨ x = c) →
  foldl resolve (Some c) l = Some c.
Proof.
  intros Hc. induction l as [|x l IH]; intros Hall; cbn [foldl]; [done|].
  assert (resolve (Some c) x = Some c) as ->.
  { unfold resolve. rewrite decide_False by done.
    rewrite decide_True; [done|].
    destruct (Hall x) as [-> | ->]; [apply elem_of_cons|..]; auto. }
  apply IH. intros y Hy. apply Hall, elem_of_cons. by right.
Qed.

Lemma foldl_resolve_blanks_then_letter c l : ∀ s,
  c ≠ SPACE → s = None ∨ s = Some SPACE →
  c ∈ l → (∀ x, x ∈ l → x = SPACE ∨ x = c) →
  foldl resolve s l = Some c.
Proof.
  induction l as [|x l IH]; intros s Hc Hs Hin Hall;
    [by apply elem_of_nil in Hin|].
  assert (∀ y, y ∈ l → y = SPACE ∨ y = c) as Hall'
    by (intros y Hy; apply Hall, elem_of_cons; by right).
  assert (resolve s x = Some x) as Hstep
    by (destruct Hs as [-> | ->]; [done | apply decide_True; done]).
  cbn [foldl]. rewrite Hstep.
  destruct (decide (x = c)) as [-> | Hne].
  - by apply foldl_resolve_same_letter.
  - apply elem_of_cons in Hin as [? | Hin]; [done|].
    destruct (Hall x) as [-> | ?]; [apply elem_of_cons; by left | | done].
    apply IH; auto.
Qed.

Lemma foldl_resolve_blanks l : ∀ s,
  is_Some s → (∀ x, x ∈ l → x = SPACE) → foldl resolve s l = s.
Proof.
  induction l as [|x l IH]; intros s [a ->] Hall; cbn [foldl]; [done|].
  assert (x = SPACE) as -> by (apply Hall, elem_of_cons; by left).
  assert (resolve (Some a) SPACE = Some a) as ->.
  { unfold resolve. destruct (decide (a = SPACE)) as [-> | Ha]; [done|].
    rewrite decide_True; [done | by left]. }
  apply IH; [done|]. intros y Hy. apply Hall, elem_of_cons. by right.
Qed.

Lemma lettersPlacedAt_snoc ws b p :
  lettersPlacedAt (ws ++ [b]) p
  = lettersPlacedAt ws p ++ atCoord p (wordPlacements b).
Proof.
  unfold lettersPlacedAt.
  rewrite bind_app, atCoord_app, bind_cons. simpl. by rewrite app_nil_r.
Qed.

Lemma letterAt_insert_blank_word cwi ws1 ws2 b p :
  (∀ x, x ∈ atCoord p (wordPlacements b) → x = SPACE) →
  is_Some (letterAt (createLetters cwi (ws1 ++ ws2)) p) →
  letterAt (createLetters cwi (ws1 ++ b :: ws2)) p
  = letterAt (createLetters cwi (ws1 ++ ws2)) p.
Proof.
  intros Hb Hsome. rewrite !letterAt_createLetters in *.
  rewrite (foldl_resolve_Permutation
             (lettersPlacedAt (ws1 ++ b :: ws2) p)
             (lettersPlacedAt ((ws1 ++ ws2) ++ [b]) p)).
  - rewrite lettersPlacedAt_snoc, foldl_app. by apply foldl_resolve_blanks.
  - apply lettersPlacedAt_Permutation.
    rewrite <- Permutation_middle. apply Permutation_cons_append.
Qed.

(** C4. Blanks are transparent. A blank arriving at a coordinate that has an
    entry leaves the stored letter as it is: it never overrides a concrete
    letter and never produces the conflict marker. A character arriving at
    a coordinate whose stored letter is a blank replaces the blank, without
    conflict. For a whole word list: a word that places only blanks at a
    coordinate can be put anywhere in the list without changing the letter
    resolved at a coordinate that has one, whatever the other words place
    there; and when the words place at a coordinate only blanks and one
    concrete letter [c], the reconciled letter there is [c]. *)
Theorem blanks_are_transparent (cwi : option nat) :
  (∀ (idx : nat) (p : Coord) (m : gmap Coord LetterEntry) (e : LetterEntry),
     m !! p = Some e →
     letterAt (placeLetter cwi idx p SPACE m) p = Some (letter e))
  ∧ (∀ (idx : nat) (p : Coord) (c : ascii) (m : gmap Coord LetterEntry)
       (e : LetterEntry),
       m !! p = Some e → letter e = SPACE →
       letterAt (placeLetter cwi idx p c m) p = Some c)
  ∧ (∀ (ws1 ws2 : list Word) (b : Word) (p : Coord),
       (∀ x, x ∈ atCoord p (wordPlacements b) → x = SPACE) →
       is_Some (letterAt (createLetters cwi (ws1 ++ ws2)) p) →
       letterAt (createLetters cwi (ws1 ++ b :: ws2)) p
       = letterAt (createLetters cwi (ws1 ++ ws2)) p)
  ∧ (∀ (ws : list Word) (p : Coord) (c : ascii),
       c ≠ SPACE → c ∈ lettersPlacedAt ws p →
       (∀ x, x ∈ lettersPlacedAt ws p → x = SPACE ∨ x = c) →
       letterAt (createLetters cwi ws) p = Some c).
Proof.
  split_and!.
  - intros idx p m e He. rewrite letterAt_placeLetter_same.
    unfold letterAt. rewrite He. cbn [fmap option_fmap option_map].
    unfold resolve.
    destruct (decide (letter e = SPACE)) as [-> | Hl]; [done|].
    destruct (decide (SPACE = SPACE ∨ letter e = SPACE)) as [_ | Hn]; [done|].
    exfalso. apply Hn. by left.
  - intros idx p c m e He Hl. rewrite letterAt_placeLetter_same.
    unfold letterAt. rewrite He. cbn [fmap option_fmap option_map].
    unfold resolve. by rewrite decide_True.
  - intros ws1 ws2 b p. apply letterAt_insert_blank_word.
  - intros ws p c Hc Hin Hall. rewrite letterAt_createLetters.
    apply foldl_resolve_blanks_then_letter; auto.
Qed.

End BlankTransparency.

(** * Solving mode *)

Section SolvingFacts.

Lemma length_chars s : length (chars s) = String.length s.
Proof. induction s as [|c s IH]; simpl; [done | by rewrite IH]. Qed.

Lemma solvedFrom_spec gs ws : ∀ i,
  solvedFrom gs i ws = true
  ↔ ∀ j w, ws !! j = Some w → gs !! (i + j)%nat = Some (word w).
Proof.
  induction ws as [|x ws IH]; intros i; simpl.
  - split; [by intros _ j w H | done].
  - case_decide as Hx.
    + split; [done|]. intros H. exfalso. apply Hx.
      specialize (H 0%nat x eq_refl). by rewrite Nat.add_0_r in H.
    + rewrite IH. split.
      * intros H [|j] w Hj; simpl in Hj.
        -- injection Hj as <-. by rewrite Nat.add_0_r.
        -- replace (i + S j)%nat with (S i + j)%nat by lia. by apply H.
      * intros H j w Hj. replace (S i + j)%nat with (i + S j)%nat by lia.
        by apply H.
Qed.

Lemma solvedFrom_texts gs ws ws' : ∀ i,
  word <$> ws = word <$> ws' → solvedFrom gs i ws = solvedFrom gs i ws'.
Proof.
  revert ws'. induction ws as [|x ws IH]; intros [|x' ws'] i H;
    simplify_eq/=; [done|].
  rewrite H. case_decide; [done|]. by apply IH.
Qed.

(** C7. [solved] is true exactly when, at every word index of the
    crossword, the guess is the answer text itself (same characters, same
    length). Nothing else enters the check: a crossword without words is
    solved whatever the guesses, two crosswords with the same answer texts
    are solved by the same guesses wherever their words lie, and a
    crossword is solved even when its reconciled lattice shows the conflict
    marker. *)
Theorem solved_iff_every_guess_is_the_answer :
  (∀ c gs, solved c gs = true
           ↔ ∀ i w, words c !! i = Some w → gs !! i = Some (word w))
  ∧ (∀ n gs, solved (mkCrossword n []) gs = true)
  ∧ (∀ c c' gs, word <$> words c = word <$> words c' →
                solved c gs = solved c' gs)
  ∧ (let c := mkCrossword "clash"
                [mkWord "AB" X (0, 0, 0) "first";
                 mkWord "CD" X (0, 0, 0) "second"] in
     solved c ["AB"; "CD"]%string = true
     ∧ (viewLetters None c ["AB"; "CD"]%string
          ≫= (fun letters => letterAt letters (0, 0, 0))) = Some CONFLICT).
Proof.
  split_and!.
  - intros c gs. unfold solved. by rewrite solvedFrom_spec.
  - done.
  - intros c c' gs H. by apply solvedFrom_texts.
  - by vm_compute.
Qed.

End SolvingFacts.

Section GuessPassIsTotal.

Variable cwi : option nat.

Lemma placeBlank_covers (idx : nat) (p : Coord) (m : gmap Coord LetterEntry) :
  covers m (placeBlank cwi idx p m) ∧ is_Some (placeBlank cwi idx p m !! p).
Proof.
  unfold placeBlank, covers. split.
  - intros q Hq. destruct (decide (p = q)) as [->|Hne].
    + rewrite lookup_insert_eq. eauto.
    + by rewrite lookup_insert_ne.
  - rewrite lookup_insert_eq. eauto.
Qed.

Lemma placeBlanksFrom_covers idx st d n : ∀ i (m : gmap Coord LetterEntry),
  covers m (placeBlanksFrom cwi idx st d i n m)
  ∧ ∀ k, (k < n)%nat →
         is_Some (placeBlanksFrom cwi idx st d i n m
                    !! wordLetterPosition st d (Z.of_nat (i + k))).
Proof.
  induction n as [|n IH]; intros i m; simpl.
  - split; [by intros q Hq | lia].
  - destruct (IH (S i)
               (placeBlank cwi idx (wordLetterPosition st d (Z.of_nat i)) m))
      as [Hcov Hnew].
    destruct (placeBlank_covers idx (wordLetterPosition st d (Z.of_nat i)) m)
      as [Hcov0 Hnew0].
    split; [intros q Hq; by apply Hcov, Hcov0|]. intros [|k] Hk.
    + rewrite Nat.add_0_r. by apply Hcov.
    + replace (i + S k)%nat with (S i + k)%nat by lia. apply Hnew. lia.
Qed.

Lemma answerPassFrom_covers ws : ∀ idx (m : gmap Coord LetterEntry),
  covers m (answerPassFrom cwi idx ws m)
  ∧ ∀ j w (k : nat), ws !! j = Some w → (k < String.length (word w))%nat →
      is_Some (answerPassFrom cwi idx ws m
                 !! wordLetterPosition (start w) (direction w) (Z.of_nat k)).
Proof.
  induction ws as [|x ws IH]; intros idx m; simpl;
    [split; [by intros q Hq | done]|].
  set (m1 := placeBlanksFrom cwi idx (start x) (direction x) 0
               (String.length (word x)) m).
  destruct (IH (S idx) m1) as [Hcov Hnew].
  destruct (placeBlanksFrom_covers idx (start x) (direction x)
              (String.length (word x)) 0%nat m) as [Hcov0 Hnew0].
  fold m1 in Hcov0, Hnew0.
  split; [intros q Hq; by apply Hcov, Hcov0|].
  intros [|j] w k Hj Hk; simpl in Hj.
  - injection Hj as <-. apply Hcov. by apply (Hnew0 k).
  - by eapply Hnew.
Qed.

Lemma placeGuessLetter_total (idx : nat) (p : Coord) (c : ascii)
    (m : gmap Coord LetterEntry) :
  is_Some (m !! p) →
  ∃ m', placeGuessLetter cwi idx p c m = Some m' ∧ covers m m'.
Proof.
  intros [e He]. unfold placeGuessLetter. rewrite He. simpl.
  unfold covers.
  repeat case_decide; eexists; (split; [done|]); intros q Hq;
    (destruct (decide (p = q)) as [->|Hne];
     [rewrite lookup_insert_eq; eauto | by rewrite lookup_insert_ne]).
Qed.

Lemma placeGuessFrom_total idx st d cs : ∀ i (m : gmap Coord LetterEntry),
  (∀ k, (k < length cs)%nat →
        is_Some (m !! wordLetterPosition st d (Z.of_nat (i + k)))) →
  ∃ m', placeGuessFrom cwi idx st d i cs m = Some m' ∧ covers m m'.
Proof.
  induction cs as [|c cs IH]; intros i m Hm; simpl;
    [exists m; split; [done | by intros q Hq]|].
  destruct (placeGuessLetter_total idx
              (wordLetterPosition st d (Z.of_nat i)) c m)
    as (m1 & -> & Hcov1).
  { specialize (Hm 0%nat). rewrite Nat.add_0_r in Hm. apply Hm. simpl. lia. }
  simpl. destruct (IH (S i) m1) as (m2 & -> & Hcov2).
  { intros k Hk. apply Hcov1.
    replace (S i + k)%nat with (i + S k)%nat by lia. apply Hm. simpl. lia. }
  exists m2. split; [done|]. intros q Hq. by apply Hcov2, Hcov1.
Qed.

Lemma guessPassFrom_total c gs : ∀ idx (m : gmap Coord LetterEntry),
  (∀ j g, gs !! j = Some g →
     ∃ w, words c !! (idx + j)%nat = Some w
          ∧ ∀ k : nat, (k < String.length g)%nat →
              is_Some (m !! wordLetterPosition (start w) (direction w)
                                               (Z.of_nat k))) →
  ∃ m', guessPassFrom cwi c idx gs m = Some m'.
Proof.
  induction gs as [|g gs IH]; intros idx m Hm; simpl; [by eauto|].
  destruct (Hm 0%nat g eq_refl) as (w & Hw & Hk).
  rewrite Nat.add_0_r in Hw. rewrite Hw. simpl.
  destruct (placeGuessFrom_total idx (start w) (direction w) (chars g) 0%nat m)
    as (m1 & -> & Hcov1).
  { intros k Hlt. rewrite length_chars in Hlt. by apply Hk. }
  simpl. apply IH. intros j g' Hj.
  destruct (Hm (S j) g' Hj) as (w' & Hw' & Hk').
  exists w'. split; [by replace (S idx + j)%nat with (idx + S j)%nat by lia|].
  intros k Hlt. by apply Hcov1, Hk'.
Qed.

Lemma initialGuesses_fit c : guessesFit c (initialGuesses c).
Proof.
  intros i g Hg. unfold initialGuesses in Hg.
  apply lookup_replicate in Hg as [-> Hi].
  destruct (lookup_lt_is_Some_2 (words c) i Hi) as [w Hw].
  exists w. split; [done | simpl; lia].
Qed.

(** The guard of the guess input keeps the guesses fitting. *)
Lemma changeGuess_fit c i gs text gs' :
  length gs = length (words c) → guessesFit c gs →
  changeGuess c i gs text = Some gs' →
  guessesFit c gs' ∧ length gs' = length (words c).
Proof.
  intros Hlen Hfit Hchange. unfold changeGuess in Hchange.
  destruct (words c !! i) as [w|] eqn:Hw; [|discriminate]. cbn in Hchange.
  pose proof (lookup_lt_Some _ _ _ Hw) as Hi.
  destruct (bool_decide (String.length text ≤ String.length (word w))%nat)
    eqn:Hle; cbn in Hchange;
    [destruct (onlyContainsUpperCaseAlphabetsAndSpaces text);
     cbn in Hchange|]; injection Hchange as <-; try done.
  apply bool_decide_eq_true in Hle.
  rewrite Nat.add_1_r, <- insert_take_drop by lia.
  split; [|by rewrite length_insert].
  intros j g Hg. destruct (decide (i = j)) as [<- | Hne].
  - rewrite list_lookup_insert_eq in Hg by lia. injection Hg as <-. eauto.
  - rewrite list_lookup_insert_ne in Hg by done. by apply Hfit.
Qed.

(** C10. When every guess has an answer word at its index and is not longer
    than that answer, every coordinate that the guess pass of
    [ViewCrossword] visits has an entry from the answer pass, so the
    unguarded read of [entry.letter] always finds an entry: the two-pass
    reconciliation returns a map. *)
Theorem guess_pass_finds_every_entry (c : Crossword) (gs : list string) :
  guessesFit c gs →
  (∀ i g w (k : nat),
     gs !! i = Some g → words c !! i = Some w → (k < String.length g)%nat →
     is_Some (answerPass cwi c
                !! wordLetterPosition (start w) (direction w) (Z.of_nat k)))
  ∧ ∃ letters, viewLetters cwi c gs = Some letters.
Proof.
  intros Hfit.
  assert (∀ i g w (k : nat),
     gs !! i = Some g → words c !! i = Some w → (k < String.length g)%nat →
     is_Some (answerPass cwi c
                !! wordLetterPosition (start w) (direction w) (Z.of_nat k)))
    as Hcov.
  { intros i g w k Hg Hw Hk. destruct (Hfit i g Hg) as (w' & Hw' & Hle).
    assert (w' = w) as -> by congruence.
    eapply (proj2 (answerPassFrom_covers (words c) 0%nat ∅)); [done | lia]. }
  split; [done|]. apply guessPassFrom_total. intros j g Hj.
  destruct (Hfit j g Hj) as (w & Hw & Hle). eauto.
Qed.

End GuessPassIsTotal.

(** * Edit history *)

Section HistoryFacts.

Lemma replaceWordAt_insert i f (ws : list Word) w :
  ws !! i = Some w → replaceWordAt (Some i) f ws = Some (<[i := f w]> ws).
Proof.
  intros H. unfold replaceWordAt. simpl. rewrite H. simpl.
  by rewrite insert_take_drop by eauto using lookup_lt_Some.
Qed.

(** Undoing a change of one field of word [k] and applying it again. *)
Lemma replaceWordAt_back_and_forth k (f g : Word → Word) (ws : list Word) w :
  (∀ x, g (f x) = g x) → (∀ x, g (g x) = g x) →
  ws !! k = Some w →
  ∃ u, replaceWordAt (Some k) f (<[k := g w]> ws) = Some u
       ∧ replaceWordAt (Some k) g u = Some (<[k := g w]> ws).
Proof.
  intros Hgf Hgg Hk. pose proof (lookup_lt_Some _ _ _ Hk) as Hlt.
  eexists. split.
  - apply replaceWordAt_insert. by apply list_lookup_insert_eq.
  - erewrite replaceWordAt_insert
      by (apply list_lookup_insert_eq; by rewrite length_insert).
    by rewrite Hgf, Hgg, !list_insert_insert_eq.
Qed.

Lemma delete_then_reinsert (ws : list Word) index w :
  ws !! index = Some w →
  take index (take index ws ++ drop (index + 1) ws)
    ++ w :: drop index (take index ws ++ drop (index + 1) ws) = ws.
Proof.
  intros H. pose proof (lookup_lt_Some _ _ _ H) as Hlt.
  rewrite take_app_length' by (rewrite length_take; lia).
  rewrite drop_app_length' by (rewrite length_take; lia).
  rewrite Nat.add_1_r. by apply take_drop_middle.
Qed.

Ltac field_change Hk :=
  match goal with
  | |- context [<[?k := ?g ?w]> ?ws] =>
      apply (replaceWordAt_back_and_forth k _ g ws w); [done | done | exact Hk]
  end.

(** Every recording action truncates the history after the cursor, appends
    one entry that describes the new state, and moves the cursor onto it. *)
Lemma recording_step s a s' :
  recordsHistory a = true → createCrosswordReducer s a = Some s' →
  ∃ e, history s' = take (historyIndex s + 1) (history s) ++ [e]
       ∧ historyIndex s' = (historyIndex s + 1)%nat
       ∧ recordedBy s' e.
Proof.
  destruct s as [[n ws] cw oc h hi]. unfold recordedBy.
  destruct a; try discriminate; intros _ Hstep; cbn in Hstep.
  - (* SetName *)
    injection Hstep as <-. eexists. split_and!; try reflexivity.
    by eexists.
  - (* NewWord *)
    injection Hstep as <-. eexists. split_and!; try reflexivity.
    cbn. eexists. split; [|reflexivity].
    rewrite length_app. cbn. replace (length ws + 1 - 1)%nat with (length ws) by lia.
    by rewrite take_app_length.
  - (* SelectWord *)
    destruct (ws !! index) as [w|] eqn:Hw; [|discriminate].
    injection Hstep as <-. eexists. split_and!; try reflexivity.
    by eexists.
  - (* DeleteWord *)
    destruct (ws !! index) as [w|] eqn:Hw; [|discriminate].
    injection Hstep as <-. eexists. split_and!; try reflexivity.
    cbn. eexists. split; [by rewrite delete_then_reinsert|reflexivity].
  - (* ShowWordList *)
    injection Hstep as <-. eexists. split_and!; try reflexivity.
    by eexists.
  - (* SetStart *)
    destruct cw as [k|]; [|discriminate]. cbn in Hstep.
    destruct (ws !! k) as [w|] eqn:Hw; [|discriminate]. cbn in Hstep.
    injection Hstep as <-. eexists. split_and!; try reflexivity.
    cbn. rewrite <- insert_take_drop by eauto using lookup_lt_Some.
    field_change Hw.
  - (* SetDirection *)
    destruct cw as [k|]; [|discriminate]. cbn in Hstep.
    destruct (ws !! k) as [w|] eqn:Hw; [|discriminate]. cbn in Hstep.
    injection Hstep as <-. eexists. split_and!; try reflexivity.
    cbn. rewrite <- insert_take_drop by eauto using lookup_lt_Some.
    field_change Hw.
  - (* SetWord *)
    destruct cw as [k|]; [|discriminate]. cbn in Hstep.
    destruct (ws !! k) as [w|] eqn:Hw; [|discriminate]. cbn in Hstep.
    injection Hstep as <-. eexists. split_and!; try reflexivity.
    cbn. rewrite <- insert_take_drop by eauto using lookup_lt_Some.
    field_change Hw.
  - (* SetDescription *)
    destruct cw as [k|]; [|discriminate]. cbn in Hstep.
    destruct (ws !! k) as [w|] eqn:Hw; [|discriminate]. cbn in Hstep.
    injection Hstep as <-. eexists. split_and!; try reflexivity.
    cbn. rewrite <- insert_take_drop by eauto using lookup_lt_Some.
    field_change Hw.
  - (* DragEnd *)
    destruct cw as [k|]; [|discriminate]. cbn in Hstep.
    destruct (ws !! k) as [w|] eqn:Hw; [|discriminate]. cbn in Hstep.
    injection Hstep as <-. eexists. split_and!; try reflexivity.
    cbn. rewrite <- insert_take_drop by eauto using lookup_lt_Some.
    field_change Hw.
Qed.

Lemma recording_step_cursor s a s' :
  cursorOk s → recordsHistory a = true →
  createCrosswordReducer s a = Some s' →
  (historyIndex s' + 1 = length (history s'))%nat.
Proof.
  unfold cursorOk. intros Hc Ha Hstep.
  destruct (recording_step s a s' Ha Hstep) as (e & -> & -> & _).
  rewrite length_app, length_take. simpl. lia.
Qed.

Lemma undo_redo_after_recording s a s' :
  cursorOk s → recordsHistory a = true →
  createCrosswordReducer s a = Some s' →
  undoThenRedo s' = Some s'.
Proof.
  unfold cursorOk. intros Hc Ha Hstep.
  destruct (recording_step s a s' Ha Hstep)
    as (e & Hh & Hi & Hw & Ho & Hn & u & Hu & Hr).
  destruct (lookup_lt_is_Some_2 (history s) (historyIndex s) Hc)
    as [prev Hprev].
  assert (length (take (historyIndex s + 1) (history s))
          = (historyIndex s + 1)%nat) as Hlen
    by (rewrite length_take; lia).
  assert (history s' !! historyIndex s = Some prev) as Hat.
  { rewrite Hh, lookup_app_l by lia. by rewrite lookup_take_lt by lia. }
  assert (history s' !! (historyIndex s + 1)%nat = Some e) as Hcur.
  { rewrite Hh, lookup_app_r by lia. by rewrite Hlen, Nat.sub_diag. }
  assert (length (history s') = (historyIndex s + 2)%nat) as Hlen'.
  { rewrite Hh, length_app, Hlen. simpl. lia. }
  destruct s' as [[n' ws'] cw' oc' h' hi']. simpl in *. subst hi'.
  unfold undoThenRedo. cbn.
  rewrite decide_False by lia.
  replace (historyIndex s + 1 - 1)%nat with (historyIndex s) by lia.
  rewrite Hat, Hcur. cbn. rewrite Hu. cbn.
  rewrite decide_False by lia. rewrite Hcur. cbn. rewrite Hr. cbn.
  by rewrite Hw, Ho, Hn.
Qed.

Lemma undo_redo_after_reset s a s' :
  resetsHistory a = true → createCrosswordReducer s a = Some s' →
  undoThenRedo s' = Some s' ∧ cursorOk s'.
Proof.
  destruct a; try discriminate. intros _ Hstep. cbn in Hstep.
  match goal with c : Crossword |- _ => destruct c as [n ws] end.
  injection Hstep as <-.
  split; [reflexivity | unfold cursorOk; simpl; lia].
Qed.

Lemma undo_redo_invariant acts : ∀ s0 s,
  cursorOk s0 → undoThenRedo s0 = Some s0 →
  forallb (fun a => recordsHistory a || resetsHistory a) acts = true →
  dispatchAll s0 acts = Some s →
  cursorOk s ∧ undoThenRedo s = Some s.
Proof.
  induction acts as [|a acts IH]; intros s0 s Hc Hrt Hall Hrun.
  - injection Hrun as <-. by split.
  - cbn in Hall, Hrun. apply andb_prop in Hall as [Ha Hall].
    destruct (createCrosswordReducer s0 a) as [s1|] eqn:Hstep; [|discriminate].
    cbn in Hrun. apply orb_prop in Ha as [Ha | Ha].
    + apply (IH s1 s); try done.
      * pose proof (recording_step_cursor s0 a s1 Hc Ha Hstep).
        unfold cursorOk. lia.
      * by apply (undo_redo_after_recording s0 a).
    + destruct (undo_redo_after_reset s0 a s1 Ha Hstep). by apply (IH s1 s).
Qed.

(** C2. After any sequence of structural edits from the initial state of
    the editor (every action that records a history entry, and opening a
    crossword), [Undo] followed by [Redo] gives back exactly the state
    before the [Undo]: the same name, word list, selected word index and
    orbit center, and the same history and cursor. *)
Theorem undo_then_redo_is_identity
    (acts : list CreateCrosswordAction) (s : CreateCrosswordState) :
  forallb (fun a => recordsHistory a || resetsHistory a) acts = true →
  dispatchAll initialState acts = Some s →
  undoThenRedo s = Some s.
Proof.
  intros Hall Hrun.
  apply (undo_redo_invariant acts initialState s); try done.
  unfold cursorOk. simpl. lia.
Qed.

Lemma undo_shape s s' :
  historyIndex s ≠ 0%nat → createCrosswordReducer s Undo = Some s' →
  history s' = history s ∧ historyIndex s' = (historyIndex s - 1)%nat.
Proof.
  intros Hne Hstep. cbn in Hstep. rewrite decide_False in Hstep by done.
  destruct (history s !! (historyIndex s - 1)%nat); [|discriminate].
  destruct (history s !! historyIndex s); [|discriminate]. cbn in Hstep.
  destruct (undoWordsChange _ _ _); [|discriminate].
  by injection Hstep as <-.
Qed.

Lemma redo_at_last_entry s n :
  (historyIndex s + 1 = length (history s))%nat →
  dispatchAll s (replicate n Redo) = Some s.
Proof.
  intros Hlast. induction n as [|n IH]; [done|].
  cbn. rewrite decide_True by lia. cbn. apply IH.
Qed.

(** C6. Every structural edit (every action that records a history entry)
    keeps the entries from index 0 through the cursor, appends one new
    entry, which describes the state after the edit, and advances the
    cursor by one. Hence after edit A, [Undo], and edit B, the history is
    the entries up to the old cursor followed by the entry of B alone: the
    cursor is on the last entry, and any number of [Redo] actions leave the
    state as it is, so the entry of A is never reached. *)
Theorem edit_truncates_history_and_appends :
  (∀ s a s',
     recordsHistory a = true → createCrosswordReducer s a = Some s' →
     ∃ e, history s' = take (historyIndex s + 1) (history s) ++ [e]
          ∧ historyIndex s' = (historyIndex s + 1)%nat
          ∧ recordedBy s' e)
  ∧ (∀ s0 a b s1 s2 s3,
       cursorOk s0 →
       recordsHistory a = true → recordsHistory b = true →
       createCrosswordReducer s0 a = Some s1 →
       createCrosswordReducer s1 Undo = Some s2 →
       createCrosswordReducer s2 b = Some s3 →
       ∃ eA eB,
         history s1 = take (historyIndex s0 + 1) (history s0) ++ [eA]
         ∧ history s3 = take (historyIndex s0 + 1) (history s0) ++ [eB]
         ∧ recordedBy s3 eB
         ∧ (historyIndex s3 + 1 = length (history s3))%nat
         ∧ ∀ n, dispatchAll s3 (replicate n Redo) = Some s3).
Proof.
  split; [exact recording_step|].
  intros s0 a b s1 s2 s3 Hc Ha Hb HA HU HB. unfold cursorOk in Hc.
  destruct (recording_step s0 a s1 Ha HA) as (eA & HhA & HiA & _).
  destruct (undo_shape s1 s2 ltac:(lia) HU) as [HhU HiU].
  destruct (recording_step s2 b s3 Hb HB) as (eB & HhB & HiB & HrB).
  assert (history s3 = take (historyIndex s0 + 1) (history s0) ++ [eB]) as Hh3.
  { rewrite HhB, HhU, HiU, HiA, HhA.
    replace (historyIndex s0 + 1 - 1 + 1)%nat with (historyIndex s0 + 1)%nat
      by lia.
    by rewrite take_app_length' by (rewrite length_take; lia). }
  assert (historyIndex s3 + 1 = length (history s3))%nat as Hlast.
  { rewrite Hh3, HiB, HiU, HiA, length_app, length_take. simpl. lia. }
  exists eA, eB. split_and!; try done.
  intros n. by apply redo_at_last_entry.
Qed.

End HistoryFacts.

(** ** Deleting a word and the orbit center *)

Section DeleteWordFocus.

Lemma between_spec s o e :
  between s o e = true ↔ (s ≤ o ∧ o ≤ e) ∨ (e ≤ o ∧ o ≤ s).
Proof.
  unfold between.
  rewrite orb_true_iff, !andb_true_iff, !Z.leb_le, !Z.geb_le. tauto.
Qed.

(** For a word with at least one letter, the test of the three dimensions
    is membership in the span of its letter blocks. *)
Lemma coversOrbitCenter_nonempty o w :
  (0 < String.length (word w))%nat →
  coversOrbitCenter o w = true ↔ inSpan w o.
Proof.
  intros Hlen. destruct w as [t d [[s0 s1] s2] desc], o as [[o0 o1] o2].
  unfold coversOrbitCenter, inSpan. simpl in *. split.
  - destruct d; simpl; rewrite !andb_true_iff, !between_spec;
      intros [[H0 H1] H2];
      [exists (Z.to_nat (o0 - s0)) | exists (Z.to_nat (s1 - o1))
       | exists (Z.to_nat (o2 - s2))];
      (split; [lia|]);
      repeat match goal with |- (_, _) = (_, _) => f_equal end; lia.
  - intros (k & Hk & Heq).
    destruct d; simpl in *; injection Heq as <- <- <-;
      rewrite !andb_true_iff, !between_spec; lia.
Qed.

Lemma orbitCenterHasBlockFrom_spec index o ws : ∀ i,
  orbitCenterHasBlockFrom index o i ws = true
  ↔ ∃ j w, ws !! j = Some w ∧ (i + j)%nat ≠ index
           ∧ coversOrbitCenter o w = true.
Proof.
  induction ws as [|x ws IH]; intros i; simpl.
  - split; [done | by intros (j & w & H & _)].
  - case_decide as Hi.
    + rewrite IH. split.
      * intros (j & w & Hj & Hne & Hc). exists (S j), w.
        split_and!; [done | lia | done].
      * intros ([|j] & w & Hj & Hne & Hc); simpl in Hj.
        -- rewrite Nat.add_0_r in Hne. done.
        -- exists j, w. split_and!; [done | lia | done].
    + destruct (coversOrbitCenter o x) eqn:Hx.
      * split; [|done]. intros _. exists 0%nat, x.
        rewrite Nat.add_0_r. by split_and!.
      * rewrite IH. split.
        -- intros (j & w & Hj & Hne & Hc). exists (S j), w.
           split_and!; [done | lia | done].
        -- intros ([|j] & w & Hj & Hne & Hc); simpl in Hj.
           ++ injection Hj as <-. congruence.
           ++ exists j, w. split_and!; [done | lia | done].
Qed.

(** X12.  What [DeleteWord] does to the orbit center when no word is empty:
    it is kept when a remaining word has a letter block there, and reset to
    the origin otherwise. *)
Lemma deleteWord_orbitCenter_nonempty s index s' :
  (∀ w, w ∈ words (crossword s) → (0 < String.length (word w))%nat) →
  createCrosswordReducer s (DeleteWord index) = Some s' →
  (orbitCenter s' = orbitCenter s
   ∧ ∃ j w, j ≠ index ∧ words (crossword s) !! j = Some w
            ∧ inSpan w (orbitCenter s))
  ∨ (orbitCenter s' = origin
     ∧ ∀ j w, j ≠ index → words (crossword s) !! j = Some w →
              ¬ inSpan w (orbitCenter s)).
Proof.
  intros Hne Hstep. cbn in Hstep.
  destruct (words (crossword s) !! index) as [w0|]; [|discriminate].
  cbn in Hstep. injection Hstep as <-. cbn.
  destruct (orbitCenterHasBlock index (orbitCenter s) (words (crossword s)))
    eqn:Hb; unfold orbitCenterHasBlock in Hb.
  - left. split; [done|].
    apply orbitCenterHasBlockFrom_spec in Hb as (j & w & Hj & Hji & Hc).
    exists j, w. split_and!; [done | done |].
    apply coversOrbitCenter_nonempty; [|done].
    eapply Hne, list_elem_of_lookup_2, Hj.
  - right. split; [done|]. intros j w Hji Hj Hspan.
    assert (orbitCenterHasBlockFrom index (orbitCenter s) 0
              (words (crossword s)) = true) as Hb'; [|congruence].
    apply orbitCenterHasBlockFrom_spec. exists j, w. split_and!; [done..|].
    apply coversOrbitCenter_nonempty; [|done].
    eapply Hne, list_elem_of_lookup_2, Hj.
Qed.

(** C9, at an input where the code departs from it. After the actions
    new word, text "AB", back to the list, new word, back to the list, the
    orbit center is (1,0,0): the center block of "AB" and the start of the
    second, still empty word. Deleting "AB" leaves only the empty word,
    which has no letter block at all, yet the orbit center stays at (1,0,0)
    instead of being reset to the origin. *)
Theorem deleteWord_keeps_orbitCenter_on_empty_word :
  ∃ s s',
    dispatchAll initialState
      [NewWord; SetWord "AB"; ShowWordList; NewWord; ShowWordList] = Some s
    ∧ orbitCenter s = (1, 0, 0)
    ∧ createCrosswordReducer s (DeleteWord 0) = Some s'
    ∧ words (crossword s') = [emptyWordAt (1, 0, 0)]
    ∧ (∀ w, w ∈ words (crossword s') → ¬ inSpan w (orbitCenter s))
    ∧ orbitCenter s' = (1, 0, 0)
    ∧ orbitCenter s' ≠ origin.
Proof.
  eexists. eexists. split_and!; try reflexivity.
  - intros w Hw (k & Hk & _).
    apply list_elem_of_singleton in Hw as ->. simpl in Hk. lia.
  - done.
Qed.

End DeleteWordFocus.

(** * File check *)

Section LoaderFacts.

(** The code of [word[i]] is asked at index [i] of the one-character string
    [word[i]]: beyond index 0 there is no such character. *)
Lemma charCodeAt_charString c i :
  charCodeAt (charString c) (S i) = None
  ∧ charCodeAt (charString c) 0 = Some (Z.of_nat (nat_of_ascii c)).
Proof. split; [by destruct i | done]. Qed.

Lemma checkWords_first_letter ws : ∀ (m : gmap Coord ascii) w ch,
  w ∈ ws → chars (word w) !! 0%nat = Some ch →
  Z.of_nat (nat_of_ascii ch) < codeA ∨ codeZ < Z.of_nat (nat_of_ascii ch) →
  checkWords ws m = None.
Proof.
  induction ws as [|x ws IH]; intros m w ch Hin Hch Hbad;
    [by apply elem_of_nil in Hin|].
  cbn [checkWords]. apply elem_of_cons in Hin as [<- | Hin].
  - destruct (chars (word w)) as [|c cs]; [done|].
    simpl in Hch. injection Hch as ->. cbn [checkWordFrom].
    assert (numLt (charCodeAt (charString ch) 0) codeA
            || numGt (charCodeAt (charString ch) 0) codeZ = true) as ->; [|done].
    rewrite (proj2 (charCodeAt_charString ch 0)). simpl.
    apply orb_true_iff. destruct Hbad; [left | right]; lia.
  - destruct (checkWordFrom _ _ _ _ _); [by eapply IH | done].
Qed.

(** What the check does enforce: a word whose first character is outside
    A–Z makes the loader report "Invalid crossword". *)
Lemma openCrossword_rejects_first_letter c w ch :
  schemaAccepts c = true → w ∈ words c → chars (word w) !! 0%nat = Some ch →
  Z.of_nat (nat_of_ascii ch) < codeA ∨ codeZ < Z.of_nat (nat_of_ascii ch) →
  openCrossword c = Failed "Invalid crossword".
Proof.
  intros Hs Hw Hch Hbad. unfold openCrossword. rewrite Hs.
  by rewrite (checkWords_first_letter (words c) ∅ w ch).
Qed.

(** C5, at an input where the code departs from it. The file with the single
    word "Ab" has the required shape, and its second character is outside
    A–Z; the loader does not report "Invalid crossword" but opens it: the
    character test never sees a character beyond the first of a word. *)
Theorem openCrossword_accepts_lower_case_after_first_letter :
  let file := mkCrossword "bad" [mkWord "Ab" X (0, 0, 0) "lower case b"] in
  schemaAccepts file = true
  ∧ (∃ w ch, w ∈ words file ∧ chars (word w) !! 1%nat = Some ch
             ∧ codeZ < Z.of_nat (nat_of_ascii ch))
  ∧ openCrossword file = Opened file
  ∧ openCrossword file ≠ Failed "Invalid crossword".
Proof.
  split_and!; [done | | by vm_compute | by vm_compute].
  eexists _, "b"%char. split_and!;
    [apply list_elem_of_singleton; reflexivity | done | by vm_compute].
Qed.

End LoaderFacts.

(** * The theorems at concrete inputs *)

Section Instances.

(** "HELLO" along X from the origin and "AXXXX" down Y from (4,0,0): the
    'O' and the 'A' meet at (4,0,0). *)
Lemma conflict_marks_every_contributor_invalid_witness :
  let ws := [mkWord "HELLO" X (0, 0, 0) "Greeting";
             mkWord "AXXXX" Y (4, 0, 0) "Clash"] in
  placesAt ws 0 4 "O" (4, 0, 0) ∧ placesAt ws 1 0 "A" (4, 0, 0)
  ∧ ∃ e, createLetters None ws !! (4, 0, 0) = Some e
         ∧ letter e = CONFLICT
         ∧ (∀ i, i ∈ lettersBy e →
                 wordValidity ws (createLetters None ws) !! i = Some false)
         ∧ 0%nat ∈ lettersBy e ∧ 1%nat ∈ lettersBy e
         ∧ wordValidity ws (createLetters None ws) !! 0%nat = Some false
         ∧ wordValidity ws (createLetters None ws) !! 1%nat = Some false.
Proof.
  intros ws.
  assert (placesAt ws 0 4 "O" (4, 0, 0)) as H1
    by (eexists; split_and!; reflexivity).
  assert (placesAt ws 1 0 "A" (4, 0, 0)) as H2
    by (eexists; split_and!; reflexivity).
  split_and!; [exact H1 | exact H2 |].
  apply (conflict_marks_every_contributor_invalid None ws 0 1 4 0
           "O" "A" (4, 0, 0) H1 H2); discriminate.
Defined.

Lemma undo_then_redo_is_identity_witness :
  let acts := [NewWord; SetWord "HI"; SetStart (2, 0, 0); ShowWordList;
               DeleteWord 0; SetName "Puzzle"] in
  forallb (fun a => recordsHistory a || resetsHistory a) acts = true
  ∧ ∃ s, dispatchAll initialState acts = Some s ∧ undoThenRedo s = Some s.
Proof.
  intros acts. split; [reflexivity|].
  eexists. split; [reflexivity|].
  apply (undo_then_redo_is_identity acts); reflexivity.
Defined.

Lemma reconciled_letters_order_independent_witness :
  let w1 := mkWord "HELLO" X (0, 0, 0) "Greeting" in
  let w2 := mkWord "AXXXX" Y (4, 0, 0) "Clash" in
  Permutation [w1; w2] [w2; w1]
  ∧ ∀ p, letterAt (createLetters None [w1; w2]) p
         = letterAt (createLetters (Some 0%nat) [w2; w1]) p.
Proof.
  intros w1 w2.
  assert (Permutation [w1; w2] [w2; w1]) as H by apply perm_swap.
  split; [exact H|].
  exact (reconciled_letters_order_independent None (Some 0%nat) _ _ H).
Defined.

Lemma blanks_are_transparent_witness :
  let hello := mkWord "HELLO" X (0, 0, 0) "Greeting" in
  let gap := mkWord "  " Y (4, 1, 0) "Two blanks" in
  letterAt (placeLetter None 1 (4, 0, 0) SPACE (createLetters None [hello]))
           (4, 0, 0) = Some "O"%char
  ∧ letterAt (placeLetter None 1 (4, 0, 0) "O" (createLetters None [gap]))
             (4, 0, 0) = Some "O"%char
  ∧ letterAt (createLetters None [gap; hello]) (4, 0, 0)
    = letterAt (createLetters None [hello]) (4, 0, 0)
  ∧ letterAt (createLetters None [gap; hello]) (4, 0, 0) = Some "O"%char.
Proof.
  intros hello gap.
  destruct (blanks_are_transparent None)
    as (Hblank & Hletter & Hinsert & Hlist).
  split_and!.
  - eapply (Hblank 1%nat (4, 0, 0) (createLetters None [hello])
              (mkEntry "O" (4, 0, 0) Opaque1 [0%nat])).
    reflexivity.
  - eapply (Hletter 1%nat (4, 0, 0) "O"%char (createLetters None [gap])
              (mkEntry SPACE (4, 0, 0) Opaque1 [0%nat])); reflexivity.
  - apply (Hinsert [] [hello] gap (4, 0, 0)).
    + intros x Hx. by apply list_elem_of_singleton in Hx.
    + by eexists.
  - apply (Hlist [gap; hello] (4, 0, 0) "O"%char).
    + discriminate.
    + apply elem_of_cons. right. apply elem_of_cons. by left.
    + intros x Hx. apply elem_of_cons in Hx as [-> | Hx]; [by left|].
      apply list_elem_of_singleton in Hx as ->. by right.
Defined.

Lemma edit_truncates_history_and_appends_witness :
  (∃ s1, createCrosswordReducer initialState NewWord = Some s1
         ∧ ∃ e, history s1 = take 1 (history initialState) ++ [e]
                ∧ historyIndex s1 = 1%nat ∧ recordedBy s1 e)
  ∧ (∃ s1 s2 s3,
       createCrosswordReducer initialState NewWord = Some s1
       ∧ createCrosswordReducer s1 Undo = Some s2
       ∧ createCrosswordReducer s2 (SetName "B") = Some s3
       ∧ ∃ eA eB,
           history s1 = take 1 (history initialState) ++ [eA]
           ∧ history s3 = take 1 (history initialState) ++ [eB]
           ∧ recordedBy s3 eB
           ∧ (historyIndex s3 + 1 = length (history s3))%nat
           ∧ ∀ n, dispatchAll s3 (replicate n Redo) = Some s3).
Proof.
  destruct edit_truncates_history_and_appends as [Hstep Hbranch].
  split.
  - eexists. split; [reflexivity|].
    apply (Hstep initialState NewWord); reflexivity.
  - eexists _, _, _. split_and!; [reflexivity..|].
    eapply (Hbranch initialState NewWord (SetName "B"));
      [unfold cursorOk; simpl; lia | reflexivity..].
Defined.

Lemma solved_iff_every_guess_is_the_answer_witness :
  solved EXAMPLE_CROSSWORD ["HELLO"; "WORLD"]%string = true
  ∧ (∀ i w, words EXAMPLE_CROSSWORD !! i = Some w →
            ["HELLO"; "WORLD"]%string !! i = Some (word w))
  ∧ solved EXAMPLE_CROSSWORD ["HELLO"; "WORLDS"]%string = false.
Proof.
  destruct solved_iff_every_guess_is_the_answer as (Hiff & _).
  split_and!; [reflexivity | | reflexivity].
  apply (proj1 (Hiff EXAMPLE_CROSSWORD ["HELLO"; "WORLD"]%string)).
  reflexivity.
Defined.

Lemma guess_pass_finds_every_entry_witness :
  guessesFit EXAMPLE_CROSSWORD ["HE"; ""]%string
  ∧ (∀ i g w (k : nat),
       ["HE"; ""]%string !! i = Some g →
       words EXAMPLE_CROSSWORD !! i = Some w → (k < String.length g)%nat →
       is_Some (answerPass None EXAMPLE_CROSSWORD
                  !! wordLetterPosition (start w) (direction w) (Z.of_nat k)))
  ∧ ∃ letters,
      viewLetters None EXAMPLE_CROSSWORD ["HE"; ""]%string = Some letters.
Proof.
  assert (guessesFit EXAMPLE_CROSSWORD ["HE"; ""]%string) as Hfit.
  { intros [|[|i]] g Hg; simpl in Hg; [| |discriminate];
      injection Hg as <-; eexists; (split; [reflexivity | simpl; lia]). }
  split; [exact Hfit|].
  exact (guess_pass_finds_every_entry None EXAMPLE_CROSSWORD _ Hfit).
Defined.

End Instances.

(** * More on the lattice reconciler *)

Section ReconcilerBlocks.

Variable cwi : option nat.

Lemma wordOpacity_Opaque1 (idx : nat) :
  wordOpacity cwi idx = Opaque1 ↔ cwi = None ∨ cwi = Some idx.
Proof.
  unfold wordOpacity. destruct cwi as [c|]; [|by intuition].
  case_decide; [subst; by intuition|].
  split; [done | intros [? | [= ->]]; done].
Qed.

Lemma opacityMax_Opaque1 a b :
  opacityMax a b = Opaque1 ↔ a = Opaque1 ∨ b = Opaque1.
Proof. destruct a, b; simpl; intuition congruence. Qed.

Lemma placeLetter_entriesOk (idx : nat) (p : Coord) (c : ascii)
    (m : gmap Coord LetterEntry) :
  entriesOk cwi m → entriesOk cwi (placeLetter cwi idx p c m).
Proof.
  intros Hm q e. destruct (decide (p = q)) as [<- | Hne];
    [|rewrite lookup_placeLetter_other by done; apply Hm].
  unfold placeLetter. destruct (m !! p) as [e0|] eqn:He0.
  - destruct (Hm p e0 He0) as (_ & _ & Hop).
    assert (opacityMax (wordOpacity cwi idx) (opacity e0) = Opaque1
            ↔ cwi = None
              ∨ ∃ i, i ∈ lettersBy e0 ++ [idx] ∧ cwi = Some i) as Hnew.
    { rewrite opacityMax_Opaque1, wordOpacity_Opaque1, Hop. split.
      - intros [[? | ?] | [? | (i & Hi & ?)]]; auto; right;
          [exists idx | exists i]; (split; [|done]); apply elem_of_app;
          [right; by apply list_elem_of_singleton | by left].
      - intros [? | (i & Hi & ?)]; [by left; left|].
        apply elem_of_app in Hi as [Hi | Hi].
        + right. right. by exists i.
        + apply list_elem_of_singleton in Hi as ->. left. by right. }
    repeat case_decide; rewrite lookup_insert_eq; intros [= <-]; simpl;
      (split_and!; [done | by destruct (lettersBy e0) | by apply Hnew]).
  - rewrite lookup_insert_eq. intros [= <-]. simpl.
    split_and!; [done | done |].
    rewrite wordOpacity_Opaque1. split.
    + intros [? | ?]; [by left | right]. exists idx.
      split; [by apply list_elem_of_singleton | done].
    + intros [? | (i & Hi & ?)]; [by left|].
      apply list_elem_of_singleton in Hi as ->. by right.
Qed.

Lemma placeWordFrom_entriesOk idx st d cs : ∀ i (m : gmap Coord LetterEntry),
  entriesOk cwi m → entriesOk cwi (placeWordFrom cwi idx st d i cs m).
Proof.
  induction cs as [|c cs IH]; intros i m Hm; simpl; [done|].
  by apply IH, placeLetter_entriesOk.
Qed.

Lemma placeWordsFrom_entriesOk ws : ∀ idx (m : gmap Coord LetterEntry),
  entriesOk cwi m → entriesOk cwi (placeWordsFrom cwi idx ws m).
Proof.
  induction ws as [|w ws IH]; intros idx m Hm; simpl; [done|].
  by apply IH, placeWordFrom_entriesOk.
Qed.

Lemma createLetters_entriesOk ws : entriesOk cwi (createLetters cwi ws).
Proof.
  apply placeWordsFrom_entriesOk. intros p e H.
  by rewrite lookup_empty in H.
Qed.

(** ** Contributors come from placements *)

Lemma placeLetter_contributes_inv (idx : nat) (p q : Coord) (c : ascii)
    (m : gmap Coord LetterEntry) (i : nat) :
  contributesAt (placeLetter cwi idx p c m) q i →
  contributesAt m q i ∨ (q = p ∧ i = idx).
Proof.
  intros (e & He & Hi). destruct (decide (p = q)) as [<- | Hne].
  - unfold placeLetter in He. destruct (m !! p) as [e0|] eqn:He0.
    + repeat case_decide; rewrite lookup_insert_eq in He;
        injection He as <-; simpl in Hi;
        (apply elem_of_app in Hi as [Hi | Hi];
         [left; by exists e0
         | right; by apply list_elem_of_singleton in Hi]).
    + rewrite lookup_insert_eq in He. injection He as <-. simpl in Hi.
      right. by apply list_elem_of_singleton in Hi.
  - rewrite lookup_placeLetter_other in He by done. left. by exists e.
Qed.

Lemma placeWordFrom_contributes_inv idx st d cs :
  ∀ i0 (m : gmap Coord LetterEntry) q i,
  contributesAt (placeWordFrom cwi idx st d i0 cs m) q i →
  contributesAt m q i
  ∨ (i = idx ∧ ∃ k c, cs !! k = Some c
                      ∧ q = wordLetterPosition st d (Z.of_nat (i0 + k))).
Proof.
  induction cs as [|x cs IH]; intros i0 m q i H; simpl in H; [by left|].
  apply IH in H as [H | (-> & k & c & Hk & ->)].
  - apply placeLetter_contributes_inv in H as [H | [-> ->]]; [by left|].
    right. split; [done|]. exists 0%nat, x. by rewrite Nat.add_0_r.
  - right. split; [done|]. exists (S k), c. split; [done|].
    by replace (i0 + S k)%nat with (S i0 + k)%nat by lia.
Qed.

Lemma placeWordsFrom_contributes_inv ws :
  ∀ idx (m : gmap Coord LetterEntry) q i,
  contributesAt (placeWordsFrom cwi idx ws m) q i →
  contributesAt m q i
  ∨ ∃ j k c, i = (idx + j)%nat ∧ placesAt ws j k c q.
Proof.
  induction ws as [|w ws IH]; intros idx m q i H; simpl in H; [by left|].
  apply IH in H as [H | (j & k & c & -> & (w' & Hw' & Hc & Hq))].
  - apply placeWordFrom_contributes_inv in H as [H | (-> & k & c & Hk & ->)];
      [by left|].
    right. exists 0%nat, k, c. split; [lia|]. by exists w.
  - right. exists (S j), k, c. split; [lia|]. by exists w'.
Qed.

Lemma createLetters_contributes_iff ws p i :
  contributesAt (createLetters cwi ws) p i ↔ ∃ k c, placesAt ws i k c p.
Proof.
  split.
  - intros H. apply placeWordsFrom_contributes_inv in H
      as [(e & He & _) | (j & k & c & -> & H)].
    + by rewrite lookup_empty in He.
    + by exists k, c.
  - intros (k & c & H). by eapply createLetters_contributes.
Qed.

(** X1. The blocks of the authoring view are exactly the letter positions
    of the words: the map has an entry at a coordinate if and only if some
    word places a character there; the entry stores that coordinate as its
    position; and its contributor list holds exactly the indices of the
    words that place a character there. *)
Theorem createLetters_blocks_are_the_letter_positions
    (ws : list Word) (p : Coord) :
  (is_Some (createLetters cwi ws !! p) ↔ ∃ i k c, placesAt ws i k c p)
  ∧ ∀ e, createLetters cwi ws !! p = Some e →
         position e = p
         ∧ ∀ i, i ∈ lettersBy e ↔ ∃ k c, placesAt ws i k c p.
Proof.
  split.
  - split.
    + intros [e He].
      destruct (createLetters_entriesOk ws p e He) as (_ & Hne & _).
      destruct (lettersBy e) as [|i l] eqn:Hl; [done|].
      exists i. apply createLetters_contributes_iff.
      exists e. split; [done|]. rewrite Hl. apply elem_of_cons. by left.
    + intros (i & k & c & H).
      destruct (createLetters_contributes cwi ws i k c p H) as (e & He & _).
      by exists e.
  - intros e He. split; [by apply (createLetters_entriesOk ws p e He)|].
    intros i. rewrite <- createLetters_contributes_iff. split.
    + intros Hi. by exists e.
    + intros (e' & He' & Hi). by simplify_eq.
Qed.

(** X2. When a word is selected, a block is fully opaque exactly when the
    selected word places a character at its coordinate; when no word is
    selected every block is fully opaque. *)
Theorem block_is_opaque_iff_selected_word_is_there
    (ws : list Word) (p : Coord) (e : LetterEntry) :
  createLetters cwi ws !! p = Some e →
  opacity e = Opaque1
  ↔ cwi = None ∨ ∃ i k c, cwi = Some i ∧ placesAt ws i k c p.
Proof.
  intros He. destruct (createLetters_entriesOk ws p e He) as (_ & _ & ->).
  split; (intros [? | H]; [by left | right]).
  - destruct H as (i & Hi & Hc). 
    assert (contributesAt (createLetters cwi ws) p i) as Hcon by by exists e.
    apply createLetters_contributes_iff in Hcon as (k & c & H).
    by exists i, k, c.
  - destruct H as (i & k & c & Hc & H). exists i. split; [|done].
    destruct (createLetters_contributes cwi ws i k c p H) as (e' & He' & Hi).
    by simplify_eq.
Qed.

End ReconcilerBlocks.

Section ConflictCause.

Lemma elem_of_placementsFrom_inv st d cs : ∀ i q c,
  (q, c) ∈ placementsFrom st d i cs →
  ∃ k, cs !! k = Some c ∧ q = wordLetterPosition st d (Z.of_nat (i + k)).
Proof.
  induction cs as [|x cs IH]; intros i q c H; simpl in H;
    [by apply elem_of_nil in H|].
  apply elem_of_cons in H as [[= -> ->] | H].
  - exists 0%nat. by rewrite Nat.add_0_r.
  - apply IH in H as (k & Hk & ->). exists (S k). split; [done|].
    by replace (i + S k)%nat with (S i + k)%nat by lia.
Qed.

Lemma elem_of_wordPlacements ws p c :
  (p, c) ∈ ws ≫= wordPlacements ↔ ∃ i k, placesAt ws i k c p.
Proof.
  rewrite list_elem_of_bind. split.
  - intros (w & Hin & Hw). apply list_elem_of_lookup in Hw as [i Hi].
    apply elem_of_placementsFrom_inv in Hin as (k & Hk & ->).
    exists i, k, w. by split_and!.
  - intros (i & k & w & Hw & Hc & <-). exists w. split.
    + apply (elem_of_placementsFrom _ _ _ 0%nat k c Hc).
    + by eapply list_elem_of_lookup_2.
Qed.

Lemma elem_of_lettersPlacedAt ws p c :
  c ∈ lettersPlacedAt ws p ↔ ∃ i k, placesAt ws i k c p.
Proof.
  rewrite <- elem_of_wordPlacements. unfold lettersPlacedAt, atCoord.
  rewrite list_elem_of_fmap. split.
  - intros ([q c'] & -> & H). apply list_elem_of_filter in H as [Hq H].
    simpl in *. by subst q.
  - intros H. exists (p, c). split; [done|].
    apply list_elem_of_filter. by split.
Qed.

Lemma foldl_resolve_conflict_cause l : ∀ s,
  foldl resolve s l = Some CONFLICT →
  CONFLICT ∈ option_list s ++ l
  ∨ ∃ a b, a ∈ option_list s ++ l ∧ b ∈ option_list s ++ l
           ∧ a ≠ SPACE ∧ b ≠ SPACE ∧ a ≠ b.
Proof.
  induction l as [|x l IH]; intros s H; cbn [foldl] in H.
  - left. subst s. simpl. apply elem_of_cons. by left.
  - assert (∀ s', (∀ y, y ∈ option_list s' ++ l → y ∈ option_list s ++ x :: l) →
              foldl resolve s' l = Some CONFLICT →
              CONFLICT ∈ option_list s ++ x :: l
              ∨ ∃ a b, a ∈ option_list s ++ x :: l
                       ∧ b ∈ option_list s ++ x :: l
                       ∧ a ≠ SPACE ∧ b ≠ SPACE ∧ a ≠ b) as Hmono.
    { intros s' Hsub Hs'.
      destruct (IH s' Hs') as [Hc | (a & b & Ha & Hb & Hrest)];
        [left; by apply Hsub | right; exists a, b; split_and!; auto; tauto]. }
    destruct s as [l0|]; cbn [resolve] in H.
    + destruct (decide (l0 = SPACE)) as [-> | Hl0].
      * apply (Hmono (Some x)); [|done]. intros y Hy.
        simpl in *. apply elem_of_cons. by right.
      * destruct (decide (x = SPACE ∨ l0 = x)) as [Hk | Hk].
        -- apply (Hmono (Some l0)); [|done]. intros y Hy. simpl in *.
           apply elem_of_cons in Hy as [-> | Hy]; apply elem_of_cons;
             [by left | right; apply elem_of_cons; by right].
        -- right. exists l0, x. simpl. split_and!.
           ++ apply elem_of_cons. by left.
           ++ apply elem_of_cons. right. apply elem_of_cons. by left.
           ++ done.
           ++ intros ->. apply Hk. by left.
           ++ intros ->. apply Hk. by right.
    + apply (Hmono (Some x)); [|done]. intros y Hy. by simpl in *.
Qed.

(** X3. The conflict marker has a cause: when the reconciled letter at a
    coordinate is "?", either some word places the character "?" itself
    there, or two words place differing non-blank characters there. Words
    made of letters A-Z and blanks therefore show "?" only at a real
    clash. *)
Theorem conflict_marker_has_a_cause
    (cwi : option nat) (ws : list Word) (p : Coord) :
  letterAt (createLetters cwi ws) p = Some CONFLICT →
  (∃ i k, placesAt ws i k CONFLICT p)
  ∨ ∃ i1 k1 a i2 k2 b,
      placesAt ws i1 k1 a p ∧ placesAt ws i2 k2 b p
      ∧ a ≠ SPACE ∧ b ≠ SPACE ∧ a ≠ b.
Proof.
  rewrite letterAt_createLetters. intros H.
  apply foldl_resolve_conflict_cause in H. simpl in H.
  destruct H as [H | (a & b & Ha & Hb & Hrest)].
  - left. by apply elem_of_lettersPlacedAt.
  - right. apply elem_of_lettersPlacedAt in Ha as (i1 & k1 & Ha).
    apply elem_of_lettersPlacedAt in Hb as (i2 & k2 & Hb).
    by exists i1, k1, a, i2, k2, b.
Qed.

End ConflictCause.

(** * More on the file check *)

Section LoaderAccepts.

Lemma represents_step (m : gmap Coord ascii) l (p : Coord) (c : ascii) :
  represents m l →
  (m !! p = None → represents (<[p := c]> m) (l ++ [(p, c)]))
  ∧ (m !! p = Some c → represents m (l ++ [(p, c)])).
Proof.
  intros Hm. split; intros Hp q x; rewrite elem_of_app, list_elem_of_singleton.
  - destruct (decide (p = q)) as [<- | Hne].
    + rewrite lookup_insert_eq. split.
      * intros [= ->]. by right.
      * intros [H | [= ->]]; [|done]. apply Hm in H. congruence.
    + rewrite lookup_insert_ne by done. split.
      * intros H. left. by apply Hm.
      * intros [H | [= -> ->]]; [by apply Hm | done].
  - split.
    + intros H. left. by apply Hm.
    + intros [H | [= -> ->]]; [by apply Hm | done].
Qed.

Lemma charOk_first c :
  numLt (charCodeAt (charString c) 0) codeA
  || numGt (charCodeAt (charString c) 0) codeZ = false
  ↔ isUpperCase c.
Proof.
  unfold isUpperCase. rewrite (proj2 (charCodeAt_charString c 0)).
  cbn [numLt numGt].
  by rewrite orb_false_iff, Z.gtb_ltb, !Z.ltb_ge.
Qed.

(** One letter of the check, once the character test is passed. *)
Lemma checkLetter_spec (m : gmap Coord ascii) l (p : Coord) (c : ascii) :
  represents m l →
  match m !! p with
  | None => represents (<[p := c]> m) (l ++ [(p, c)])
  | Some e => if decide (e ≠ c) then clashes (l ++ [(p, c)])
              else represents m (l ++ [(p, c)])
  end.
Proof.
  intros Hm. destruct (represents_step m l p c Hm) as [Hnone Hsome].
  destruct (m !! p) as [e|] eqn:Hp; [|by apply Hnone].
  case_decide as Hec.
  - exists p, e, c. rewrite !elem_of_app, !list_elem_of_singleton.
    split_and!; [left; by apply Hm | by right | done].
  - subst e. by apply Hsome.
Qed.

Lemma clashes_app_l l k : clashes l → clashes (l ++ k).
Proof.
  intros (q & a & b & Ha & Hb & Hne). exists q, a, b.
  rewrite !elem_of_app. by split_and!; [left | left |].
Qed.

Lemma checkWordFrom_later st d cs : ∀ i (m : gmap Coord ascii) l,
  represents m l →
  match checkWordFrom st d (S i) cs m with
  | Some m' => represents m' (l ++ placementsFrom st d (S i) cs)
  | None => clashes (l ++ placementsFrom st d (S i) cs)
  end.
Proof.
  induction cs as [|c cs IH]; intros i m l Hm; cbn [checkWordFrom placementsFrom].
  - by rewrite app_nil_r.
  - rewrite (proj1 (charCodeAt_charString c i)). cbn [numLt numGt orb].
    pose proof (checkLetter_spec m l
                  (wordLetterPosition st d (Z.of_nat (S i))) c Hm) as Hstep.
    rewrite (cons_middle _ l), app_assoc.
    destruct (m !! wordLetterPosition st d (Z.of_nat (S i))) as [e|].
    + case_decide; [by apply clashes_app_l | by apply IH].
    + by apply IH.
Qed.

Lemma checkWordFrom_first (st : Coord) (d : Direction) (cs : list ascii)
    (m : gmap Coord ascii) (l : list (Coord * ascii)) :
  represents m l →
  match checkWordFrom st d 0 cs m with
  | Some m' => represents m' (l ++ placementsFrom st d 0 cs)
               ∧ ∀ ch, cs !! 0%nat = Some ch → isUpperCase ch
  | None => (∃ ch, cs !! 0%nat = Some ch ∧ ¬ isUpperCase ch)
            ∨ clashes (l ++ placementsFrom st d 0 cs)
  end.
Proof.
  intros Hm. destruct cs as [|c cs]; cbn [checkWordFrom placementsFrom].
  - rewrite app_nil_r. by split.
  - destruct (numLt (charCodeAt (charString c) 0) codeA
              || numGt (charCodeAt (charString c) 0) codeZ) eqn:Hc.
    + left. exists c. split; [done|]. intros Hup.
      apply charOk_first in Hup. congruence.
    + apply charOk_first in Hc.
      pose proof (checkLetter_spec m l
                    (wordLetterPosition st d (Z.of_nat 0)) c Hm) as Hstep.
      rewrite (cons_middle _ l), app_assoc.
      destruct (m !! wordLetterPosition st d (Z.of_nat 0)) as [e|].
      * case_decide; [right; by apply clashes_app_l|].
        pose proof (checkWordFrom_later st d cs 0 m _ Hstep) as Hrest.
        destruct (checkWordFrom st d 1 cs m); [|by right].
        split; [done|]. by intros ch [= <-].
      * pose proof (checkWordFrom_later st d cs 0 _ _ Hstep) as Hrest.
        destruct (checkWordFrom st d 1 cs _); [|by right].
        split; [done|]. by intros ch [= <-].
Qed.

Lemma checkWords_spec ws : ∀ (m : gmap Coord ascii) l,
  represents m l →
  match checkWords ws m with
  | Some m' => represents m' (l ++ ws ≫= wordPlacements)
               ∧ Forall firstLetterOk ws
  | None => ¬ Forall firstLetterOk ws ∨ clashes (l ++ ws ≫= wordPlacements)
  end.
Proof.
  induction ws as [|w ws IH]; intros m l Hm; cbn [checkWords].
  - simpl. rewrite app_nil_r. by split.
  - rewrite bind_cons, app_assoc.
    pose proof (checkWordFrom_first (start w) (direction w) (chars (word w))
                  m l Hm) as Hw.
    fold (wordPlacements w) in Hw.
    destruct (checkWordFrom _ _ _ _ _) as [m1|].
    + destruct Hw as [Hm1 Hfirst]. specialize (IH m1 _ Hm1).
      destruct (checkWords ws m1) as [m2|].
      * destruct IH as [Hm2 Hall]. split; [done|]. by constructor.
      * destruct IH as [Hbad | Hclash]; [left | by right].
        intros Hall. apply Hbad. by inversion Hall.
    + destruct Hw as [(ch & Hch & Hbad) | Hclash].
      * left. intros Hall. inversion Hall as [|?? Hw' _]; subst.
        by apply Hbad, Hw'.
      * right. by apply clashes_app_l.
Qed.

Lemma represents_functional (m : gmap Coord ascii)
    (l : list (Coord * ascii)) (q : Coord) (a b : ascii) :
  represents m l → (q, a) ∈ l → (q, b) ∈ l → a = b.
Proof. intros Hm Ha Hb. apply Hm in Ha, Hb. congruence. Qed.

Lemma checkWords_Some_iff ws :
  is_Some (checkWords ws ∅) ↔ Forall firstLetterOk ws ∧ placementsAgree ws.
Proof.
  assert (represents ∅ []) as H0.
  { intros q c. rewrite lookup_empty. split; [done|].
    intros H. by apply elem_of_nil in H. }
  pose proof (checkWords_spec ws ∅ [] H0) as Hspec. simpl in Hspec.
  destruct (checkWords ws ∅) as [m'|].
  - destruct Hspec as [Hm' Hall]. split; [|by eauto]. intros _.
    split; [done|]. intros i1 k1 a i2 k2 b p Ha Hb.
    eapply (represents_functional m' _ p a b Hm');
      apply elem_of_wordPlacements; eauto.
  - split; [by intros [? ?]|]. intros [Hall Hagree]. exfalso.
    destruct Hspec as [Hbad | (q & a & b & Ha & Hb & Hne)]; [done|].
    apply elem_of_wordPlacements in Ha as (i1 & k1 & Ha).
    apply elem_of_wordPlacements in Hb as (i2 & k2 & Hb).
    apply Hne. by eapply Hagree.
Qed.

(** X4. What the file check accepts: a parsed file is opened exactly when
    the name, every word and every description are non-empty, the first
    character of every word is one of A-Z, and no two letter blocks of its
    words lie at one coordinate with different characters. Otherwise
    ["Invalid file"] is reported when a text is empty and ["Invalid
    crossword"] in the other cases, and the file is not opened. *)
Theorem openCrossword_opens_iff (c : Crossword) :
  (openCrossword c = Opened c
   ↔ schemaAccepts c = true ∧ Forall firstLetterOk (words c)
     ∧ placementsAgree (words c))
  ∧ (openCrossword c = Failed "Invalid file" ↔ schemaAccepts c = false)
  ∧ (openCrossword c = Failed "Invalid crossword"
     ↔ schemaAccepts c = true
       ∧ ¬ (Forall firstLetterOk (words c) ∧ placementsAgree (words c))).
Proof.
  pose proof (checkWords_Some_iff (words c)) as Hiff.
  unfold openCrossword. destruct (schemaAccepts c).
  - destruct (checkWords (words c) ∅) as [m|].
    + split_and!; split; try done.
      * intros _. split; [done|]. apply Hiff. by eexists.
      * intros [_ Hn]. exfalso. apply Hn, Hiff. by eexists.
    + split_and!; split; try done.
      * intros (_ & H). apply Hiff in H. by destruct H.
      * intros _. split; [done|]. intros H. apply Hiff in H. by destruct H.
  - split_and!; split; try done; by intros [? ?].
Qed.

End LoaderAccepts.

(** * Saving and opening *)

Section SaveAndOpen.

Lemma foldl_resolve_all_equal ch l :
  ch ∈ l → (∀ x, x ∈ l → x = ch) → foldl resolve None l = Some ch.
Proof.
  intros Hin Hall. destruct (decide (ch = SPACE)) as [-> | Hne].
  - destruct l as [|x l]; [by apply elem_of_nil in Hin|].
    cbn [foldl resolve]. rewrite (Hall x) by (apply elem_of_cons; by left).
    apply foldl_resolve_blanks; [done|].
    intros y Hy. apply Hall, elem_of_cons. by right.
  - apply foldl_resolve_blanks_then_letter; auto.
Qed.

Lemma placementsAgree_letterAt cwi ws i k ch p :
  placementsAgree ws → placesAt ws i k ch p →
  letterAt (createLetters cwi ws) p = Some ch.
Proof.
  intros Hagree Hp. rewrite letterAt_createLetters.
  apply foldl_resolve_all_equal.
  - apply elem_of_lettersPlacedAt. eauto.
  - intros x Hx. apply elem_of_lettersPlacedAt in Hx as (i' & k' & Hx).
    by eapply Hagree.
Qed.

Lemma openCrossword_Opened c c' :
  openCrossword c = Opened c' →
  c' = c ∧ schemaAccepts c = true ∧ Forall firstLetterOk (words c)
  ∧ placementsAgree (words c).
Proof.
  unfold openCrossword. intros H.
  destruct (schemaAccepts c); [|discriminate].
  destruct (checkWords (words c) ∅) as [m|] eqn:Hm; [|discriminate].
  injection H as <-.
  destruct (proj1 (checkWords_Some_iff (words c))) as [? ?];
    [rewrite Hm; by eexists | done].
Qed.

(** X5. A crossword that the file check opens is shown without a clash in
    the authoring view: at the coordinate of every letter block of every
    word the reconciled letter is that word's own character. *)
Theorem opened_crossword_shows_every_letter
    (cwi : option nat) (c c' : Crossword) (i k : nat) (ch : ascii)
    (p : Coord) :
  openCrossword c = Opened c' →
  placesAt (words c') i k ch p →
  letterAt (createLetters cwi (words c')) p = Some ch.
Proof.
  intros Hopen Hp. apply openCrossword_Opened in Hopen as (-> & _ & _ & Hag).
  by eapply placementsAgree_letterAt.
Qed.

Lemma wordValidity_lookup_Some (ws : list Word) (m : gmap Coord LetterEntry)
    (i : nat) (w : Word) :
  ws !! i = Some w → ∃ b, wordValidity ws m !! i = Some b.
Proof.
  intros Hw. unfold wordValidity. eexists.
  apply invalidateConflicts_lookup. by rewrite list_lookup_fmap, Hw.
Qed.

Lemma allowSave_true (c : Crossword) (m : gmap Coord LetterEntry) :
  allowSave c m = true
  ↔ String.length (name c) ≠ 0%nat ∧ words c ≠ []
    ∧ ∀ i w, words c !! i = Some w →
             wordValidity (words c) m !! i = Some true.
Proof.
  unfold allowSave.
  rewrite andb_true_iff, negb_true_iff, orb_false_iff,
    !bool_decide_eq_false, forallb_forall.
  assert (length (words c) ≠ 0%nat ↔ words c ≠ []) as ->
    by (destruct (words c); simpl; split; intros; (done || lia)).
  split.
  - intros (Hall & Hn & Hw). split_and!; [done..|]. intros i w Hi.
    destruct (wordValidity_lookup_Some (words c) m i w Hi) as [b Hb].
    rewrite Hb. f_equal. apply (Hall b).
    apply list_elem_of_In, list_elem_of_lookup. exists i.
    rewrite lookup_take_lt by eauto using lookup_lt_Some. done.
  - intros (Hn & Hw & Hall). split_and!; [|done..]. intros b Hb.
    apply list_elem_of_In, list_elem_of_lookup in Hb as [i Hi].
    apply lookup_take_Some in Hi as [Hi Hlt].
    destruct (lookup_lt_is_Some_2 (words c) i Hlt) as [w Hw'].
    rewrite (Hall i w Hw') in Hi. by injection Hi as <-.
Qed.

Lemma wordWellFormed_true w :
  wordWellFormed w = true
  ↔ String.length (description w) ≠ 0%nat ∧ String.length (word w) ≠ 0%nat
    ∧ SPACE ∉ chars (word w).
Proof.
  unfold wordWellFormed, containsSpace.
  destruct (decide (String.length (description w) = 0%nat)) as [Hd | Hd];
    [split; [done | by intros (? & _)]|].
  destruct (decide (String.length (word w) = 0%nat)) as [Hl | Hl];
    [split; [done | by intros (_ & ? & _)]|].
  rewrite negb_true_iff. split.
  - intros Hex. split_and!; [done..|]. intros Hin.
    apply not_true_iff_false in Hex. apply Hex, existsb_exists.
    exists SPACE. split; [by apply list_elem_of_In|].
    by apply bool_decide_eq_true.
  - intros (_ & _ & Hnot). apply not_true_iff_false. intros Hex.
    apply existsb_exists in Hex as (x & Hx & Hb).
    apply bool_decide_eq_true in Hb. subst x.
    by apply Hnot, list_elem_of_In.
Qed.

(** X6. When the editor offers to save. [allowSave] is true exactly when
    the name is non-empty, there is at least one word, and every word has a
    non-empty description, a non-empty text without a blank, and
    contributes to no coordinate that shows the conflict marker. *)
Theorem allowSave_iff (c : Crossword) (m : gmap Coord LetterEntry) :
  allowSave c m = true
  ↔ String.length (name c) ≠ 0%nat ∧ words c ≠ []
    ∧ ∀ i w, words c !! i = Some w →
        String.length (description w) ≠ 0%nat
        ∧ String.length (word w) ≠ 0%nat
        ∧ (SPACE ∉ chars (word w))
        ∧ ∀ (p : Coord) (e : LetterEntry),
            m !! p = Some e → letter e = CONFLICT → i ∉ lettersBy e.
Proof.
  rewrite allowSave_true. split; intros (Hn & Hw & Hall);
    (split_and!; [done..|]); intros i w Hi; specialize (Hall i w Hi).
  - destruct (proj1 (wordValidity_true _ _ _ _ Hi) Hall) as [Hwf Hno].
    destruct (proj1 (wordWellFormed_true w) Hwf) as (? & ? & ?).
    by split_and!.
  - destruct Hall as (? & ? & ? & Hno).
    apply (proj2 (wordValidity_true _ _ i w Hi)). split; [|done].
    by apply wordWellFormed_true.
Qed.

Lemma onlyUpperOrSpace_char s ch :
  onlyContainsUpperCaseAlphabetsAndSpaces s = true → ch ∈ chars s →
  ch = SPACE ∨ isUpperCase ch.
Proof.
  unfold onlyContainsUpperCaseAlphabetsAndSpaces. rewrite forallb_forall.
  intros Hall Hin. apply list_elem_of_In in Hin. specialize (Hall ch Hin).
  cbn beta zeta in Hall. rewrite negb_true_iff, andb_false_iff in Hall.
  destruct Hall as [Hcode | Hsp].
  - right. apply orb_false_iff in Hcode as [H1 H2].
    rewrite Z.gtb_ltb, Z.ltb_ge in H1, H2. by split.
  - left. apply negb_false_iff in Hsp. by apply bool_decide_eq_true in Hsp.
Qed.

(** X7. What the editor offers to save, the file check opens: for a
    crossword whose word texts hold only letters A-Z and blanks (the
    texts that the word input of the editor accepts), [allowSave] implies
    that [OpenCrossword] opens the saved crossword. *)
Theorem saved_crossword_opens (cwi : option nat) (c : Crossword) :
  (∀ w, w ∈ words c →
        onlyContainsUpperCaseAlphabetsAndSpaces (word w) = true) →
  allowSave c (createLetters cwi (words c)) = true →
  openCrossword c = Opened c.
Proof.
  intros Hup Hsave. apply allowSave_true in Hsave as (Hn & Hne & Hall).
  assert (∀ i w, words c !! i = Some w →
            wordWellFormed w = true
            ∧ ∀ (p : Coord) (e : LetterEntry),
                createLetters cwi (words c) !! p = Some e →
                letter e = CONFLICT → i ∉ lettersBy e) as Hvalid.
  { intros i w Hi. apply (proj1 (wordValidity_true _ _ i w Hi)).
    by apply (Hall i w). }
  assert (∀ i k a p, placesAt (words c) i k a p → a ≠ SPACE) as Hnosp.
  { intros i k a p (w & Hw & Ha & _) ->.
    destruct (Hvalid i w Hw) as [Hwf _].
    apply wordWellFormed_true in Hwf as (_ & _ & Hno).
    by eapply Hno, list_elem_of_lookup_2. }
  unfold openCrossword.
  assert (schemaAccepts c = true) as ->.
  { unfold schemaAccepts. apply andb_true_iff. split.
    - apply bool_decide_eq_true. lia.
    - apply forallb_forall. intros w Hw. apply list_elem_of_In in Hw.
      apply list_elem_of_lookup in Hw as [i Hi].
      destruct (Hvalid i w Hi) as [Hwf _].
      apply wordWellFormed_true in Hwf as (? & ? & _).
      apply andb_true_iff. split; apply bool_decide_eq_true; lia. }
  destruct (proj2 (checkWords_Some_iff (words c))) as [m ->]; [|done].
  split.
  - apply Forall_forall. intros w Hw ch Hch.
    pose proof Hw as Hw'. apply list_elem_of_lookup in Hw' as [i Hi].
    destruct (onlyUpperOrSpace_char (word w) ch (Hup w Hw)) as [-> | ?];
      [by eapply list_elem_of_lookup_2 | | done].
    exfalso. apply (Hnosp i 0%nat SPACE
                      (wordLetterPosition (start w) (direction w) 0)).
    + by exists w.
    + done.
  - intros i1 k1 a i2 k2 b p Ha Hb.
    destruct (decide (a = b)) as [|Hab]; [done|]. exfalso.
    destruct (createLetters_contributes cwi _ _ _ _ _ Ha) as (e & He & Hi1).
    destruct Ha as (w1 & Hw1 & Ha).
    destruct (Hvalid i1 w1 Hw1) as [_ Hno]. apply (Hno p e He); [|done].
    pose proof (letterAt_createLetters cwi (words c) p) as Hfold.
    rewrite (foldl_resolve_two_letters a b) in Hfold.
    + unfold letterAt in Hfold. rewrite He in Hfold. by injection Hfold.
    + apply elem_of_lettersPlacedAt. exists i1, k1, w1. by split.
    + apply elem_of_lettersPlacedAt. eauto.
    + apply (Hnosp i1 k1 a p). by exists w1.
    + by apply (Hnosp i2 k2 b p).
    + done.
Qed.

(** X8. What the file check opens, the editor offers to save again, when
    the crossword has at least one word and its texts hold only letters
    A-Z: then every word is valid and [allowSave] is true. (A file without
    words is opened too, and cannot be saved.) *)
Theorem opened_upper_case_crossword_can_be_saved
    (cwi : option nat) (c c' : Crossword) :
  openCrossword c = Opened c' →
  words c' ≠ [] →
  (∀ w ch, w ∈ words c' → ch ∈ chars (word w) → isUpperCase ch) →
  allowSave c' (createLetters cwi (words c')) = true.
Proof.
  intros Hopen Hne Hup.
  apply openCrossword_Opened in Hopen as (-> & Hschema & _ & Hagree).
  unfold schemaAccepts in Hschema.
  apply andb_true_iff in Hschema as [Hname Hwords].
  apply bool_decide_eq_true in Hname. rewrite forallb_forall in Hwords.
  apply allowSave_true. split_and!; [lia | done |].
  intros i w Hi. apply (proj2 (wordValidity_true _ _ i w Hi)).
  assert (w ∈ words c) as Hw by by eapply list_elem_of_lookup_2.
  split.
  - apply wordWellFormed_true.
    specialize (Hwords w (proj1 (list_elem_of_In _ _) Hw)).
    apply andb_true_iff in Hwords as [H1 H2].
    apply bool_decide_eq_true in H1, H2. split_and!; [lia | lia |].
    intros Hsp. by destruct (Hup w SPACE Hw Hsp).
  - intros p e He Hl Hin.
    pose proof (letterAt_createLetters cwi (words c) p) as Hfold.
    unfold letterAt in Hfold at 1. rewrite He in Hfold. simpl in Hfold.
    rewrite Hl in Hfold. symmetry in Hfold.
    apply foldl_resolve_conflict_cause in Hfold. simpl in Hfold.
    destruct Hfold as [Hc | (a & b & Ha & Hb & _ & _ & Hab)].
    + apply elem_of_lettersPlacedAt in Hc as (j & k & w' & Hw' & Hc & _).
      assert (isUpperCase CONFLICT) as [Hlo _]; [|done].
      eapply Hup; by eapply list_elem_of_lookup_2.
    + apply elem_of_lettersPlacedAt in Ha as (i1 & k1 & Ha).
      apply elem_of_lettersPlacedAt in Hb as (i2 & k2 & Hb).
      apply Hab. by eapply Hagree.
Qed.

End SaveAndOpen.

(** * More on the edit history *)

Section HistoryInvariants.

Lemma synced_cursorOk s : synced s → cursorOk s.
Proof. intros (h & Hh & _). unfold cursorOk. by eapply lookup_lt_Some. Qed.

Lemma undo_inv s s' :
  createCrosswordReducer s Undo = Some s' →
  (historyIndex s = 0%nat ∧ s' = s)
  ∨ ∃ previous current ws,
      historyIndex s ≠ 0%nat
      ∧ history s !! (historyIndex s - 1)%nat = Some previous
      ∧ history s !! historyIndex s = Some current
      ∧ undoWordsChange (entryWordIndex current) (wordsChange current)
          (words (crossword s)) = Some ws
      ∧ s' = mkState (mkCrossword (entryName previous) ws)
               (entryWordIndex previous) (entryOrbitCenter previous)
               (history s) (historyIndex s - 1).
Proof.
  intros H. cbn in H. case_decide as H0; [left; by injection H as <-|].
  right.
  destruct (history s !! (historyIndex s - 1)%nat) as [previous|] eqn:Hp;
    [|discriminate].
  destruct (history s !! historyIndex s) as [current|] eqn:Hc; [|discriminate].
  cbn in H.
  destruct (undoWordsChange _ _ _) as [ws|] eqn:Hu; [|discriminate].
  injection H as <-. exists previous, current, ws. by split_and!.
Qed.

Lemma redo_inv s s' :
  createCrosswordReducer s Redo = Some s' →
  ((historyIndex s + 1)%nat = length (history s) ∧ s' = s)
  ∨ ∃ next ws,
      (historyIndex s + 1)%nat ≠ length (history s)
      ∧ history s !! (historyIndex s + 1)%nat = Some next
      ∧ redoWordsChange (entryWordIndex next) (entryOrbitCenter next)
          (wordsChange next) (words (crossword s)) = Some ws
      ∧ s' = mkState (mkCrossword (entryName next) ws)
               (entryWordIndex next) (entryOrbitCenter next)
               (history s) (historyIndex s + 1).
Proof.
  intros H. cbn in H. case_decide as H0.
  - left. injection H as <-. split; [lia | done].
  - right.
    destruct (history s !! (historyIndex s + 1)%nat) as [next|] eqn:Hn;
      [|discriminate].
    cbn in H.
    destruct (redoWordsChange _ _ _ _) as [ws|] eqn:Hr; [|discriminate].
    injection H as <-. exists next, ws. split_and!; try done. lia.
Qed.



(** Every action but [SetOrbitCenter] keeps the entry under the cursor in
    step with the state. *)
Lemma synced_step s a s' :
  synced s → (∀ p, a ≠ SetOrbitCenter p) →
  createCrosswordReducer s a = Some s' → synced s'.
Proof.
  intros Hs Hno Hstep. pose proof (synced_cursorOk s Hs) as Hc.
  unfold cursorOk in Hc.
  destruct (recordsHistory a) eqn:Hrec.
  - destruct (recording_step s a s' Hrec Hstep)
      as (e & Hh & Hi & Hw & Ho & Hn & _).
    exists e. rewrite Hh, Hi. split_and!; try done.
    rewrite lookup_app_r by (rewrite length_take; lia).
    rewrite length_take.
    by replace (historyIndex s + 1 - (historyIndex s + 1) `min` length (history s))%nat
      with 0%nat by lia.
  - destruct a; try discriminate.
    + (* SetCrossword *)
      match goal with c : Crossword |- _ => destruct c as [n ws] end.
      injection Hstep as <-. by eexists.
    + match goal with p : Coord |- _ => by destruct (Hno p) end.
    + (* Drag *)
      destruct Hs as (h & Hh & Hn & Hw & Ho).
      cbn in Hstep. destruct (currentWordIndex s) as [k|]; [|discriminate].
      cbn in Hstep. destruct (words (crossword s) !! k); [|discriminate].
      cbn in Hstep. injection Hstep as <-. by exists h.
    + (* Undo *)
      apply undo_inv in Hstep
        as [[_ ->] | (pr & cu & ws & Hne & Hpr & _ & _ & ->)]; [done|].
      by exists pr.
    + (* Redo *)
      apply redo_inv in Hstep as [[_ ->] | (nx & ws & Hne & Hnx & _ & ->)];
        [done|].
      by exists nx.
Qed.

End HistoryInvariants.

Section UndoRestores.

Lemma replaceWordAt_restore k (f g : Word → Word) (ws : list Word) w :
  ws !! k = Some w → f (g w) = w →
  replaceWordAt (Some k) f (<[k := g w]> ws) = Some ws.
Proof.
  intros Hk Hfg. pose proof (lookup_lt_Some _ _ _ Hk) as Hlt.
  erewrite replaceWordAt_insert by (by apply list_lookup_insert_eq).
  by rewrite Hfg, list_insert_insert_eq, list_insert_id.
Qed.

Ltac undo_field Hw :=
  rewrite <- insert_take_drop by eauto using lookup_lt_Some;
  rewrite replaceWordAt_restore;
    [reflexivity | exact Hw | by match goal with w : Word |- _ => destruct w end].

(** X10. An edit followed by [Undo] gives the previous puzzle back. When
    the entry under the cursor carries the state's name, selection and
    orbit center, then after any recording action other than the end of a
    drag, [Undo] restores the name, the word list, the selected word and
    the orbit center, and moves the cursor back; the undone entry stays in
    the history for [Redo]. *)
Theorem edit_then_undo_restores s a s' :
  synced s → recordsHistory a = true → (∀ c, a ≠ DragEnd c) →
  createCrosswordReducer s a = Some s' →
  ∃ u, createCrosswordReducer s' Undo = Some u
       ∧ crossword u = crossword s
       ∧ currentWordIndex u = currentWordIndex s
       ∧ orbitCenter u = orbitCenter s
       ∧ historyIndex u = historyIndex s
       ∧ history u = history s'.
Proof.
  intros Hs Hrec Hdrag Hstep. pose proof (synced_cursorOk s Hs) as Hc.
  destruct Hs as (h & Hh & Hn & Hw & Ho). unfold cursorOk in Hc.
  destruct (recording_step s a s' Hrec Hstep) as (e & HhS & HiS & _).
  assert (length (take (historyIndex s + 1) (history s))
          = (historyIndex s + 1)%nat) as Hlen by (rewrite length_take; lia).
  assert (history s' !! historyIndex s = Some h) as Hat.
  { rewrite HhS, lookup_app_l by lia. by rewrite lookup_take_lt by lia. }
  destruct s as [[n ws] cw oc hist hi]. simpl in *. subst n cw oc.
  assert (∀ ws' e',
    s' = mkState (mkCrossword (entryName h) ws') (currentWordIndex s')
           (orbitCenter s') (take (hi + 1) hist ++ [e']) (hi + 1) →
    undoWordsChange (entryWordIndex e') (wordsChange e') ws' = Some ws →
    ∃ u, createCrosswordReducer s' Undo = Some u
         ∧ crossword u = mkCrossword (entryName h) ws
         ∧ currentWordIndex u = entryWordIndex h
         ∧ orbitCenter u = entryOrbitCenter h
         ∧ historyIndex u = hi ∧ history u = history s') as Hgo.
  { intros ws' e' Hs' Hu. rewrite Hs' in Hat |- *. cbn in Hat |- *.
    rewrite decide_False by lia.
    replace (hi + 1 - 1)%nat with hi by lia. rewrite Hat.
    rewrite lookup_app_r by lia. rewrite Hlen, Nat.sub_diag. cbn.
    rewrite Hu. cbn. eexists. by split_and!. }
  destruct a; try discriminate; cbn in Hstep.
  - (* SetName *)
    injection Hstep as <-. cbn in Hat |- *. rewrite decide_False by lia.
    replace (hi + 1 - 1)%nat with hi by lia. rewrite Hat.
    rewrite lookup_app_r by lia. rewrite Hlen, Nat.sub_diag. cbn.
    eexists. by split_and!.
  - (* NewWord *)
    injection Hstep as <-. eapply Hgo; [reflexivity|]. cbn.
    rewrite length_app. cbn.
    replace (length ws + 1 - 1)%nat with (length ws) by lia.
    by rewrite take_app_length.
  - (* SelectWord *)
    destruct (ws !! index) as [w|] eqn:Hwd; [|discriminate].
    injection Hstep as <-. by eapply Hgo.
  - (* DeleteWord *)
    destruct (ws !! index) as [w|] eqn:Hwd; [|discriminate].
    injection Hstep as <-. eapply Hgo; [reflexivity|]. cbn.
    by rewrite delete_then_reinsert.
  - (* ShowWordList *)
    injection Hstep as <-. by eapply Hgo.
  - (* SetStart *)
    destruct (entryWordIndex h) as [k|] eqn:Hk; [|discriminate].
    cbn in Hstep. destruct (ws !! k) as [w|] eqn:Hwd; [|discriminate].
    cbn in Hstep. injection Hstep as <-. eapply Hgo; [reflexivity|].
    cbn [undoWordsChange entryWordIndex wordsChange]. undo_field Hwd.
  - (* SetDirection *)
    destruct (entryWordIndex h) as [k|] eqn:Hk; [|discriminate].
    cbn in Hstep. destruct (ws !! k) as [w|] eqn:Hwd; [|discriminate].
    cbn in Hstep. injection Hstep as <-. eapply Hgo; [reflexivity|].
    cbn [undoWordsChange entryWordIndex wordsChange]. undo_field Hwd.
  - (* SetWord *)
    destruct (entryWordIndex h) as [k|] eqn:Hk; [|discriminate].
    cbn in Hstep. destruct (ws !! k) as [w|] eqn:Hwd; [|discriminate].
    cbn in Hstep. injection Hstep as <-. eapply Hgo; [reflexivity|].
    cbn [undoWordsChange entryWordIndex wordsChange]. undo_field Hwd.
  - (* SetDescription *)
    destruct (entryWordIndex h) as [k|] eqn:Hk; [|discriminate].
    cbn in Hstep. destruct (ws !! k) as [w|] eqn:Hwd; [|discriminate].
    cbn in Hstep. injection Hstep as <-. eapply Hgo; [reflexivity|].
    cbn [undoWordsChange entryWordIndex wordsChange]. undo_field Hwd.
  - (* DragEnd *)
    by destruct (Hdrag center).
Qed.

End UndoRestores.

Section DragAndUndo.





End DragAndUndo.

(** * The editor never reads a missing word *)

Section UiSafety.












End UiSafety.

Section FocusAfterDelete.

Lemma coversOrbitCenter_centerBlock w : coversOrbitCenter (centerBlock w) w = true.
Proof.
  destruct w as [t d [[s0 s1] s2] desc].
  unfold coversOrbitCenter, centerBlock, centerBlockIndex.
  cbn [word direction start].
  assert (String.length t / 2 ≤ String.length t)%nat as Hle
    by (apply Nat.Div0.div_le_upper_bound; lia).
  assert (0 < String.length t → String.length t / 2 < String.length t)%nat
    as Hlt by (intros; apply Nat.div_lt; lia).
  generalize dependent (String.length t / 2)%nat.
  generalize (String.length t). intros n q Hle Hlt.
  destruct d; cbn [wordLetterPosition];
    rewrite !andb_true_iff, !between_spec; lia.
Qed.

(** X14. Deleting a word keeps the focus on a word that stays. When the
    orbit center is the center block of some word (as it is after the word
    was selected), deleting any other word leaves the orbit center where
    it is; this holds for an empty word too. *)
Theorem deleteWord_keeps_focus_on_remaining_word s (i j : nat) w s' :
  words (crossword s) !! i = Some w → i ≠ j →
  orbitCenter s = centerBlock w →
  createCrosswordReducer s (DeleteWord j) = Some s' →
  orbitCenter s' = orbitCenter s.
Proof.
  intros Hw Hij Hoc Hstep. cbn in Hstep.
  destruct (words (crossword s) !! j) as [wj|]; [|discriminate].
  cbn in Hstep. injection Hstep as <-. cbn.
  assert (orbitCenterHasBlock j (orbitCenter s) (words (crossword s)) = true)
    as ->; [|done].
  apply orbitCenterHasBlockFrom_spec. exists i, w. split_and!; [done..|].
  rewrite Hoc. apply coversOrbitCenter_centerBlock.
Qed.

End FocusAfterDelete.

(** * More on the solving view *)

Section SolvingIsReconciling.

Variable cwi : option nat.

Lemma placeGuessLetter_placeLetter (idx : nat) (p : Coord) (c : ascii)
    (m : gmap Coord LetterEntry) :
  is_Some (m !! p) →
  placeGuessLetter cwi idx p c m = Some (placeLetter cwi idx p c m).
Proof.
  intros [e He]. unfold placeGuessLetter, placeLetter. rewrite He. simpl.
  by repeat case_decide.
Qed.

Lemma placeLetter_covers (idx : nat) (p : Coord) (c : ascii)
    (m : gmap Coord LetterEntry) :
  covers m (placeLetter cwi idx p c m).
Proof.
  intros q Hq. destruct (decide (p = q)) as [<- | Hne].
  - destruct (placeLetter_contributes cwi idx p c m) as (e & -> & _).
    by eexists.
  - by rewrite lookup_placeLetter_other.
Qed.

Lemma placeGuessFrom_placeWordFrom idx st d cs :
  ∀ i (m : gmap Coord LetterEntry),
  (∀ k, (k < length cs)%nat →
        is_Some (m !! wordLetterPosition st d (Z.of_nat (i + k)))) →
  placeGuessFrom cwi idx st d i cs m = Some (placeWordFrom cwi idx st d i cs m)
  ∧ covers m (placeWordFrom cwi idx st d i cs m).
Proof.
  induction cs as [|c cs IH]; intros i m Hm; simpl;
    [split; [done | by intros q Hq]|].
  rewrite placeGuessLetter_placeLetter
    by (specialize (Hm 0%nat); rewrite Nat.add_0_r in Hm; apply Hm;
        simpl; lia).
  simpl.
  destruct (IH (S i) (placeLetter cwi idx
                        (wordLetterPosition st d (Z.of_nat i)) c m))
    as [-> Hcov].
  { intros k Hk. apply placeLetter_covers.
    replace (S i + k)%nat with (i + S k)%nat by lia. apply Hm. simpl. lia. }
  split; [done|]. intros q Hq. by apply Hcov, placeLetter_covers.
Qed.

Lemma guessPassFrom_placeWordsFrom c gs :
  ∀ idx (m : gmap Coord LetterEntry),
  (∀ j g, gs !! j = Some g →
     ∃ w, words c !! (idx + j)%nat = Some w
          ∧ ∀ k : nat, (k < String.length g)%nat →
              is_Some (m !! wordLetterPosition (start w) (direction w)
                                               (Z.of_nat k))) →
  guessPassFrom cwi c idx gs m
  = Some (placeWordsFrom cwi idx
            (zip_with (fun w g => withWord g w) (drop idx (words c)) gs) m).
Proof.
  induction gs as [|g gs IH]; intros idx m Hm; simpl.
  - by destruct (drop idx (words c)).
  - destruct (Hm 0%nat g eq_refl) as (w & Hw & Hk).
    rewrite Nat.add_0_r in Hw. rewrite Hw. simpl.
    rewrite (drop_S _ _ _ Hw). simpl.
    destruct (placeGuessFrom_placeWordFrom idx (start w) (direction w)
                (chars g) 0%nat m) as [-> Hcov].
    { intros k Hlt. rewrite length_chars in Hlt. by apply Hk. }
    simpl. unfold placeWord. simpl. apply IH. intros j g' Hj.
    destruct (Hm (S j) g' Hj) as (w' & Hw' & Hk').
    exists w'. split; [by replace (S idx + j)%nat with (idx + S j)%nat by lia|].
    intros k Hlt. by apply Hcov, Hk'.
Qed.

Lemma guessesFit_covered c gs :
  guessesFit c gs →
  ∀ j g, gs !! j = Some g →
    ∃ w, words c !! (0 + j)%nat = Some w
         ∧ ∀ k : nat, (k < String.length g)%nat →
             is_Some (answerPass cwi c
                        !! wordLetterPosition (start w) (direction w)
                                              (Z.of_nat k)).
Proof.
  intros Hfit j g Hj. destruct (Hfit j g Hj) as (w & Hw & Hle).
  exists w. split; [done|]. intros k Hk.
  eapply (proj2 (answerPassFrom_covers cwi (words c) 0%nat ∅)); [done | lia].
Qed.

(** X15. Solving mode runs the reconciler of the editor. When every guess
    has an answer word and is not longer than it, the map of
    [ViewCrossword] is the map that the loop of [CreateCrossword] builds
    from the crossword's words carrying the guesses as their texts, started
    from the blank blocks of the answer pass instead of the empty map. *)
Theorem viewLetters_is_the_reconciler_on_guesses
    (c : Crossword) (gs : list string) :
  guessesFit c gs →
  viewLetters cwi c gs
  = Some (placeWordsFrom cwi 0 (guessWords c gs) (answerPass cwi c)).
Proof.
  intros Hfit. unfold viewLetters, guessWords.
  by rewrite (guessPassFrom_placeWordsFrom c gs 0 _ (guessesFit_covered c gs Hfit)).
Qed.

End SolvingIsReconciling.

Section SolvingBlocks.

Variable cwi : option nat.

(** ** The answer pass: blank blocks at the answer's letter positions *)

Lemma placeBlank_lookup (idx : nat) (p q : Coord)
    (m : gmap Coord LetterEntry) :
  (is_Some (placeBlank cwi idx p m !! q) ↔ q = p ∨ is_Some (m !! q))
  ∧ ∀ e, placeBlank cwi idx p m !! q = Some e →
         (letter e = SPACE ∧ lettersBy e = []) ∨ m !! q = Some e.
Proof.
  unfold placeBlank. destruct (decide (p = q)) as [<- | Hne].
  - rewrite lookup_insert_eq. split.
    + split; [by left | by eexists].
    + intros e [= <-]. by left.
  - rewrite lookup_insert_ne by done. split.
    + split; [by right | by intros [-> | ?]].
    + intros e He. by right.
Qed.

Lemma placeBlanksFrom_lookup idx st d n : ∀ i (m : gmap Coord LetterEntry) q,
  (is_Some (placeBlanksFrom cwi idx st d i n m !! q)
   ↔ (∃ k, (k < n)%nat ∧ q = wordLetterPosition st d (Z.of_nat (i + k)))
     ∨ is_Some (m !! q))
  ∧ ∀ e, placeBlanksFrom cwi idx st d i n m !! q = Some e →
         (letter e = SPACE ∧ lettersBy e = []) ∨ m !! q = Some e.
Proof.
  induction n as [|n IH]; intros i m q; simpl.
  - split; [|by right]. split; [by right|]. by intros [(k & Hk & _) | ?]; [lia|].
  - destruct (IH (S i)
               (placeBlank cwi idx (wordLetterPosition st d (Z.of_nat i)) m) q)
      as [Hdom Hent].
    destruct (placeBlank_lookup idx (wordLetterPosition st d (Z.of_nat i)) q m)
      as [Hdom0 Hent0].
    split.
    + rewrite Hdom, Hdom0. split.
      * intros [(k & Hk & ->) | [-> | ?]]; [left | left | by right].
        -- exists (S k). split; [lia|].
           by replace (i + S k)%nat with (S i + k)%nat by lia.
        -- exists 0%nat. split; [lia|]. by rewrite Nat.add_0_r.
      * intros [([|k] & Hk & ->) | ?]; [right; left | left | right; by right].
        -- by rewrite Nat.add_0_r.
        -- exists k. split; [lia|].
           by replace (i + S k)%nat with (S i + k)%nat by lia.
    + intros e He. destruct (Hent e He) as [? | He0]; [by left|].
      by apply Hent0.
Qed.

Lemma answerPassFrom_lookup ws : ∀ idx (m : gmap Coord LetterEntry) q,
  (is_Some (answerPassFrom cwi idx ws m !! q)
   ↔ (∃ i k ch, placesAt ws i k ch q) ∨ is_Some (m !! q))
  ∧ ∀ e, answerPassFrom cwi idx ws m !! q = Some e →
         (letter e = SPACE ∧ lettersBy e = []) ∨ m !! q = Some e.
Proof.
  induction ws as [|w ws IH]; intros idx m q; simpl.
  - split; [|by right]. split; [by right|].
    by intros [(i & k & ch & w & Hw & _) | ?].
  - set (m1 := placeBlanksFrom cwi idx (start w) (direction w) 0
                 (String.length (word w)) m).
    destruct (IH (S idx) m1 q) as [Hdom Hent].
    destruct (placeBlanksFrom_lookup idx (start w) (direction w)
                (String.length (word w)) 0%nat m q) as [Hdom0 Hent0].
    fold m1 in Hdom0, Hent0. split.
    + rewrite Hdom, Hdom0. split.
      * intros [(i & k & ch & w' & Hw' & Hc & Hq) | [(k & Hk & ->) | ?]];
          [left | left | by right].
        -- exists (S i), k, ch, w'. by split_and!.
        -- rewrite <- length_chars in Hk.
           destruct (lookup_lt_is_Some_2 _ _ Hk) as [ch Hch].
           exists 0%nat, k, ch, w. by split_and!.
      * intros [([|i] & k & ch & w' & Hw' & Hc & Hq) | ?];
          [right; left | left | right; by right]; simpl in Hw'.
        -- injection Hw' as <-. exists k. split; [|done].
           rewrite <- length_chars. by eapply lookup_lt_Some.
        -- exists i, k, ch, w'. by split_and!.
    + intros e He. destruct (Hent e He) as [? | He0]; [by left|].
      by apply Hent0.
Qed.

Lemma answerPass_lookup c q :
  (is_Some (answerPass cwi c !! q) ↔ ∃ i k ch, placesAt (words c) i k ch q)
  ∧ ∀ e, answerPass cwi c !! q = Some e → letter e = SPACE ∧ lettersBy e = [].
Proof.
  destruct (answerPassFrom_lookup (words c) 0%nat ∅ q) as [Hdom Hent].
  unfold answerPass. split.
  - rewrite Hdom. split; [|by left].
    intros [? | [e He]]; [done|]. by rewrite lookup_empty in He.
  - intros e He. destruct (Hent e He) as [? | He0]; [done|].
    by rewrite lookup_empty in He0.
Qed.

(** ** The guess pass adds no block *)

Lemma placeGuessLetter_dom (idx : nat) (p : Coord) (c : ascii)
    (m m' : gmap Coord LetterEntry) :
  placeGuessLetter cwi idx p c m = Some m' →
  ∀ q, is_Some (m' !! q) ↔ is_Some (m !! q).
Proof.
  unfold placeGuessLetter. intros H q.
  destruct (m !! p) as [e|] eqn:He; [|discriminate]. simpl in H.
  assert (∀ x, is_Some (<[p := x]> m !! q) ↔ is_Some (m !! q)) as Hins.
  { intros x. destruct (decide (p = q)) as [<- | Hne].
    - rewrite lookup_insert_eq, He. split; by eexists.
    - by rewrite lookup_insert_ne. }
  repeat case_decide; injection H as <-; apply Hins.
Qed.

Lemma placeGuessFrom_dom idx st d cs : ∀ i (m m' : gmap Coord LetterEntry),
  placeGuessFrom cwi idx st d i cs m = Some m' →
  ∀ q, is_Some (m' !! q) ↔ is_Some (m !! q).
Proof.
  induction cs as [|c cs IH]; intros i m m' H q; simpl in H.
  - by injection H as <-.
  - destruct (placeGuessLetter _ _ _ _ _) as [m1|] eqn:H1; [|discriminate].
    simpl in H. rewrite (IH _ _ _ H q). by eapply placeGuessLetter_dom.
Qed.

Lemma guessPassFrom_dom c gs : ∀ idx (m m' : gmap Coord LetterEntry),
  guessPassFrom cwi c idx gs m = Some m' →
  ∀ q, is_Some (m' !! q) ↔ is_Some (m !! q).
Proof.
  induction gs as [|g gs IH]; intros idx m m' H q; simpl in H.
  - by injection H as <-.
  - destruct (words c !! idx) as [w|]; [|discriminate]. simpl in H.
    destruct (placeGuessFrom _ _ _ _ _ _ _) as [m1|] eqn:H1; [|discriminate].
    simpl in H. rewrite (IH _ _ _ H q). by eapply placeGuessFrom_dom.
Qed.

(** X16. The solving view shows one block for every letter position of the
    answer, and no other, whatever has been typed: whenever [ViewCrossword]
    builds its map, the map has an entry at a coordinate if and only if a
    word of the crossword has a letter there. *)
Theorem viewLetters_blocks_are_the_answer_positions
    (c : Crossword) (gs : list string) (m : gmap Coord LetterEntry)
    (p : Coord) :
  viewLetters cwi c gs = Some m →
  is_Some (m !! p) ↔ ∃ i k ch, placesAt (words c) i k ch p.
Proof.
  intros H. rewrite (guessPassFrom_dom c gs 0 _ m H p).
  apply answerPass_lookup.
Qed.

Lemma guessWords_answers ws :
  zip_with (fun w g => withWord g w) ws (word <$> ws) = ws.
Proof.
  induction ws as [|w ws IH]; simpl; [done|].
  f_equal; [by destruct w | apply IH].
Qed.

Lemma solved_guesses c gs :
  solved c gs = true → length gs = length (words c) →
  gs = word <$> words c.
Proof.
  intros Hs Hlen. unfold solved in Hs.
  pose proof (proj1 (solvedFrom_spec gs (words c) 0) Hs) as Hall.
  apply list_eq. intros j. rewrite list_lookup_fmap.
  destruct (words c !! j) as [w|] eqn:Hw; simpl.
  - by apply (Hall j w).
  - apply lookup_ge_None. apply lookup_ge_None in Hw. lia.
Qed.

(** X17. A solved crossword is shown with its answers. When no two words
    of the crossword disagree at a shared coordinate (the file check
    guarantees it), there is one guess per word and [solved] is true, then
    the solving view builds its map, and at the coordinate of every letter
    of every word the letter shown is that letter: no conflict marker
    appears. *)
Theorem solved_view_shows_the_answers (c : Crossword) (gs : list string) :
  placementsAgree (words c) →
  length gs = length (words c) → solved c gs = true →
  ∃ m, viewLetters cwi c gs = Some m
       ∧ ∀ i k ch p, placesAt (words c) i k ch p → letterAt m p = Some ch.
Proof.
  intros Hagree Hlen Hsolved.
  rewrite (solved_guesses c gs Hsolved Hlen).
  assert (guessesFit c (word <$> words c)) as Hfit.
  { intros j g Hg. rewrite list_lookup_fmap in Hg.
    destruct (words c !! j) as [w|]; [|done]. injection Hg as <-. eauto. }
  exists (placeWordsFrom cwi 0 (words c) (answerPass cwi c)). split.
  - unfold viewLetters.
    rewrite (guessPassFrom_placeWordsFrom cwi c _ 0 _
               (guessesFit_covered cwi c _ Hfit)).
    by rewrite drop_0, guessWords_answers.
  - intros i k ch p Hp. rewrite letterAt_placeWordsFrom.
    destruct (answerPass_lookup c p) as [Hdom Hent].
    destruct (proj2 Hdom) as [e He]; [eauto|].
    unfold letterAt at 1. rewrite He. simpl.
    rewrite (proj1 (Hent e He)).
    assert (ch ∈ lettersPlacedAt (words c) p) as Hin
      by (apply elem_of_lettersPlacedAt; eauto).
    assert (∀ x, x ∈ lettersPlacedAt (words c) p → x = ch) as Hall.
    { intros x Hx. apply elem_of_lettersPlacedAt in Hx as (i' & k' & Hx).
      by eapply Hagree. }
    destruct (decide (ch = SPACE)) as [-> | Hne].
    + by apply foldl_resolve_blanks.
    + apply foldl_resolve_blanks_then_letter; auto.
Qed.

End SolvingBlocks.

Section MenuAgreesWithView.

Variable cwi : option nat.

Lemma fmap_placeBlanksFrom idx st d n : ∀ i (m : gmap Coord LetterEntry),
  menuEntryOf <$> placeBlanksFrom cwi idx st d i n m
  = menuBlanksFrom st d i n (menuEntryOf <$> m).
Proof.
  induction n as [|n IH]; intros i m; simpl; [done|].
  rewrite IH. unfold placeBlank. by rewrite fmap_insert.
Qed.

Lemma fmap_answerPassFrom ws : ∀ idx (m : gmap Coord LetterEntry),
  menuEntryOf <$> answerPassFrom cwi idx ws m
  = menuAnswerPassFrom ws (menuEntryOf <$> m).
Proof.
  induction ws as [|w ws IH]; intros idx m; simpl; [done|].
  by rewrite IH, fmap_placeBlanksFrom.
Qed.

Lemma fmap_placeGuessLetter (idx : nat) (p : Coord) (c : ascii)
    (m : gmap Coord LetterEntry) :
  fmap (M := option) (fmap menuEntryOf) (placeGuessLetter cwi idx p c m)
  = menuPlaceGuessLetter idx p c (menuEntryOf <$> m).
Proof.
  unfold placeGuessLetter, menuPlaceGuessLetter. rewrite lookup_fmap.
  destruct (m !! p) as [e|]; simpl; [|done].
  repeat case_decide; simpl; by rewrite fmap_insert.
Qed.

Lemma fmap_placeGuessFrom idx st d cs : ∀ i (m : gmap Coord LetterEntry),
  fmap (M := option) (fmap menuEntryOf) (placeGuessFrom cwi idx st d i cs m)
  = menuPlaceGuessFrom idx st d i cs (menuEntryOf <$> m).
Proof.
  induction cs as [|c cs IH]; intros i m; simpl; [done|].
  rewrite <- fmap_placeGuessLetter.
  destruct (placeGuessLetter _ _ _ _ _) as [m1|]; simpl; [apply IH | done].
Qed.

Lemma fmap_guessPassFrom c gs : ∀ idx (m : gmap Coord LetterEntry),
  fmap (M := option) (fmap menuEntryOf) (guessPassFrom cwi c idx gs m)
  = menuGuessPassFrom c idx gs (menuEntryOf <$> m).
Proof.
  induction gs as [|g gs IH]; intros idx m; simpl; [done|].
  destruct (words c !! idx) as [w|]; simpl; [|done].
  rewrite <- fmap_placeGuessFrom.
  destruct (placeGuessFrom _ _ _ _ _ _ _) as [m1|]; simpl; [apply IH | done].
Qed.

Lemma menuLetters_is_viewLetters_without_display_aux
    (c : Crossword) (gs : list string) :
  menuLetters c gs
  = fmap (M := option) (fmap menuEntryOf) (viewLetters cwi c gs).
Proof.
  unfold menuLetters, viewLetters, answerPass.
  by rewrite fmap_guessPassFrom, fmap_answerPassFrom, fmap_empty.
Qed.

(** X18. The menu and the view of solving mode reconcile alike. The map
    that [CrosswordMenu] builds for the validity of the guesses is the map
    of [ViewCrossword] with position and opacity left out: the same
    coordinates, the same letters and the same contributor lists, whichever
    word is selected; and one fails exactly when the other does. *)
Theorem menuLetters_is_viewLetters_without_display
    (c : Crossword) (gs : list string) :
  menuLetters c gs
  = fmap (M := option) (fmap menuEntryOf) (viewLetters cwi c gs).
Proof. apply menuLetters_is_viewLetters_without_display_aux. Qed.

End MenuAgreesWithView.

Section GuessValidity.

Lemma menuInvalidateConflicts_lookup es : ∀ (a : list bool) j b,
  a !! j = Some b →
  menuInvalidateConflicts es a !! j
  = Some (b && negb (existsb (fun e => bool_decide (menuLetter e = CONFLICT)
                                       && bool_decide (j ∈ menuLettersBy e))
                             es)).
Proof.
  unfold menuInvalidateConflicts.
  induction es as [|e es IH]; intros a j b Hj; cbn [foldl existsb].
  - by rewrite andb_true_r.
  - case_decide as He.
    + rewrite (IH _ j _ (invalidateAll_lookup (menuLettersBy e) a j b Hj)).
      rewrite (bool_decide_eq_true_2 _ He). simpl.
      by rewrite negb_orb, andb_assoc.
    + rewrite (IH _ j _ Hj). by rewrite (bool_decide_eq_false_2 _ He).
Qed.

Lemma containsSpace_false s : containsSpace s = false ↔ SPACE ∉ chars s.
Proof.
  unfold containsSpace. rewrite <- not_true_iff_false, existsb_exists. split.
  - intros Hn Hin. apply Hn. exists SPACE.
    split; [by apply list_elem_of_In | by apply bool_decide_eq_true].
  - intros Hn (x & Hx & Hb). apply bool_decide_eq_true in Hb. subst x.
    by apply Hn, list_elem_of_In.
Qed.

Lemma checkGuessesFrom_lookup c gs : ∀ i0 (a v : list bool),
  checkGuessesFrom c i0 gs a = Some v →
  (∀ j b, (j < i0)%nat → a !! j = Some b → v !! j = Some b)
  ∧ ∀ k g w b, gs !! k = Some g → words c !! (i0 + k)%nat = Some w →
      a !! (i0 + k)%nat = Some b →
      v !! (i0 + k)%nat
      = Some (b && bool_decide (String.length g = String.length (word w))
                && negb (containsSpace g)).
Proof.
  induction gs as [|g gs IH]; intros i0 a v H; simpl in H.
  - injection H as <-. split; [done|]. by intros k g w b Hk.
  - destruct (words c !! i0) as [w0|] eqn:Hw0; [|discriminate]. simpl in H.
    assert (∃ a', checkGuessesFrom c (S i0) gs a' = Some v
                  ∧ (∀ j b, j ≠ i0 → a !! j = Some b → a' !! j = Some b)
                  ∧ ∀ b, a !! i0 = Some b →
                      a' !! i0
                      = Some (b && bool_decide
                                     (String.length g = String.length (word w0))
                                && negb (containsSpace g)))
      as (a' & Hrest & Hother & Hhere).
    { destruct (decide (String.length g ≠ String.length (word w0))) as [Hl|Hl].
      - eexists. split; [exact H|]. split.
        + intros j b Hj Hb. rewrite (arraySet_false_lookup i0 j a b Hb).
          by rewrite bool_decide_eq_false_2, andb_true_r.
        + intros b Hb. rewrite (arraySet_false_lookup i0 i0 a b Hb).
          rewrite bool_decide_eq_true_2 by done.
          rewrite (bool_decide_eq_false_2 _ Hl). simpl.
          by rewrite !andb_false_r.
      - apply dec_stable in Hl. destruct (containsSpace g) eqn:Hsp.
        + eexists. split; [exact H|]. split.
          * intros j b Hj Hb. rewrite (arraySet_false_lookup i0 j a b Hb).
            by rewrite bool_decide_eq_false_2, andb_true_r.
          * intros b Hb. rewrite (arraySet_false_lookup i0 i0 a b Hb).
            rewrite bool_decide_eq_true_2 by done. simpl.
            by rewrite !andb_false_r.
        + exists a. split; [exact H|]. split; [done|].
          intros b Hb. rewrite Hb, (bool_decide_eq_true_2 _ Hl). simpl.
          by rewrite !andb_true_r. }
    destruct (IH (S i0) a' v Hrest) as [Hlow Hat]. split.
    + intros j b Hj Hb. apply Hlow; [lia|]. apply Hother; [lia | done].
    + intros [|k] g' w b Hk Hw Hb; simpl in Hk.
      * injection Hk as <-. rewrite Nat.add_0_r in *.
        assert (w = w0) as -> by congruence.
        apply Hlow; [lia|]. by apply Hhere.
      * replace (i0 + S k)%nat with (S i0 + k)%nat in * by lia.
        apply (Hat k g' w b); [done | done |]. apply Hother; [lia | done].
Qed.

(** X19. When a guess is valid in the solving menu. Whenever
    [CrosswordMenu] computes [wordValidity], the entry of guess [i] is
    true exactly when the guess has the length of its answer, holds no
    blank, and contributes to no coordinate that shows the conflict
    marker. *)
Theorem guessValidity_true_iff
    (c : Crossword) (gs : list string) (letters : gmap Coord MenuEntry)
    (v : list bool) (i : nat) (g : string) (w : Word) :
  menuLetters c gs = Some letters → guessValidity c gs = Some v →
  gs !! i = Some g → words c !! i = Some w →
  v !! i = Some true
  ↔ String.length g = String.length (word w)
    ∧ (SPACE ∉ chars g)
    ∧ ∀ (p : Coord) (e : MenuEntry),
        letters !! p = Some e → menuLetter e = CONFLICT →
        i ∉ menuLettersBy e.
Proof.
  intros Hm Hv Hg Hw. unfold guessValidity in Hv. rewrite Hm in Hv.
  simpl in Hv.
  assert (i < length gs)%nat as Hlt by by eapply lookup_lt_Some.
  pose proof (menuInvalidateConflicts_lookup ((map_to_list letters).*2)
                (replicate (length gs) true) i true
                (lookup_replicate_2 _ _ _ Hlt)) as Hinv.
  destruct (checkGuessesFrom_lookup c gs 0 _ v Hv) as [_ Hat].
  pose proof (Hat i g w _ Hg Hw Hinv) as Hvi.
  change (0 + i)%nat with i in Hvi. rewrite Hvi. clear Hvi.
  rewrite <- containsSpace_false. rewrite andb_true_l. split.
  - intros [= H]. apply andb_true_iff in H as [H Hsp].
    apply andb_true_iff in H as [Hno Hlen].
    apply bool_decide_eq_true in Hlen. apply negb_true_iff in Hsp.
    split_and!; [done..|]. intros p e He Hl Hin.
    apply negb_true_iff, not_true_iff_false in Hno. apply Hno.
    apply existsb_exists. exists e. split.
    + apply list_elem_of_In, list_elem_of_fmap. exists (p, e).
      split; [done|]. by apply elem_of_map_to_list.
    + by rewrite !bool_decide_eq_true_2.
  - intros (Hlen & Hsp & Hno). f_equal.
    rewrite (bool_decide_eq_true_2 _ Hlen), Hsp. simpl.
    rewrite !andb_true_r. apply negb_true_iff, not_true_iff_false.
    intros Hex. apply existsb_exists in Hex as (e & He & Hb).
    apply list_elem_of_In, list_elem_of_fmap in He as ([p e'] & -> & Hpe).
    apply elem_of_map_to_list in Hpe.
    apply andb_true_iff in Hb as [Hl Hi].
    apply bool_decide_eq_true in Hl, Hi. by eapply Hno.
Qed.

End GuessValidity.

Section TypingGuesses.

Lemma typeGuesses_fit c inputs : ∀ gs gs',
  length gs = length (words c) → guessesFit c gs →
  typeGuesses c gs inputs = Some gs' →
  length gs' = length (words c) ∧ guessesFit c gs'.
Proof.
  induction inputs as [|[i text] inputs IH]; intros gs gs' Hlen Hfit H;
    simpl in H.
  - by injection H as <-.
  - destruct (changeGuess c i gs text) as [gs1|] eqn:H1; [|discriminate].
    simpl in H.
    destruct (changeGuess_fit c i gs text gs1 Hlen Hfit H1) as [Hfit1 Hlen1].
    by apply (IH gs1 gs').
Qed.

(** X20. Typing never breaks the solving view. Starting from the empty
    guesses of a freshly opened crossword, after any sequence of inputs
    into the guess field (each for a word of the crossword), there is
    still one guess per word, no guess is longer than its answer, and both
    [ViewCrossword] and [CrosswordMenu] build their maps: the unguarded
    reads of [entry.letter] find their entries. *)
Theorem typed_guesses_keep_the_view_defined
    (cwi : option nat) (c : Crossword) (inputs : list (nat * string))
    (gs : list string) :
  typeGuesses c (initialGuesses c) inputs = Some gs →
  length gs = length (words c)
  ∧ guessesFit c gs
  ∧ is_Some (viewLetters cwi c gs)
  ∧ is_Some (menuLetters c gs).
Proof.
  intros H.
  destruct (typeGuesses_fit c inputs (initialGuesses c) gs) as [Hlen Hfit];
    [apply length_replicate | apply initialGuesses_fit | done |].
  assert (is_Some (viewLetters cwi c gs)) as Hview.
  { destruct (guessPassFrom_total cwi c gs 0 (answerPass cwi c)) as [m Hm];
      [by apply guessesFit_covered | by exists m]. }
  split_and!; try done.
  rewrite (menuLetters_is_viewLetters_without_display_aux cwi).
  destruct Hview as [m ->]. by eexists.
Qed.

End TypingGuesses.

Section MenuHighlight.

Lemma containsOrbitCenterWord_covers o w :
  containsOrbitCenterWord o w = coversOrbitCenter o w.
Proof.
  unfold containsOrbitCenterWord, coversOrbitCenter.
  destruct (start w) as [[s0 s1] s2], o as [[o0 o1] o2].
  destruct (wordLetterPosition _ _ _) as [[e0 e1] e2].
  by destruct (between s0 o0 e0), (between s1 o1 e1), (between s2 o2 e2).
Qed.

(** X21. Which words the solving menu highlights. The entry of word [i] in
    [containsOrbitCenter] is true when the orbit center is the center block
    of that word, as it is after a click on the word in the list; and for a
    word with at least one letter it is true exactly when the orbit center
    is one of the word's letter positions. *)
Theorem containsOrbitCenter_marks_the_words_at_the_focus
    (c : Crossword) (i : nat) (w : Word) :
  words c !! i = Some w →
  containsOrbitCenter c (centerBlock w) !! i = Some true
  ∧ ((0 < String.length (word w))%nat →
     ∀ o, containsOrbitCenter c o !! i = Some true ↔ inSpan w o).
Proof.
  intros Hw. unfold containsOrbitCenter. split.
  - rewrite list_lookup_fmap, Hw. simpl.
    by rewrite containsOrbitCenterWord_covers, coversOrbitCenter_centerBlock.
  - intros Hlen o. rewrite list_lookup_fmap, Hw. simpl.
    rewrite containsOrbitCenterWord_covers.
    rewrite <- (coversOrbitCenter_nonempty o w Hlen).
    split; [by intros [= ->] | by intros ->].
Qed.

End MenuHighlight.

(** * The further theorems at concrete inputs *)

Section MoreInstances.

(** Membership in a list that is written out. *)
Ltac in_list H :=
  repeat (apply elem_of_cons in H as [-> | H]);
  try (by apply elem_of_nil in H).

Lemma block_is_opaque_iff_selected_word_is_there_witness :
  ∃ e, createLetters (Some 1%nat) (words EXAMPLE_CROSSWORD) !! (4, 0, 0)
       = Some e
       ∧ (opacity e = Opaque1
          ↔ Some 1%nat = None
            ∨ ∃ i k c, Some 1%nat = Some i
                       ∧ placesAt (words EXAMPLE_CROSSWORD) i k c (4, 0, 0)).
Proof.
  eexists. split; [reflexivity|].
  apply (block_is_opaque_iff_selected_word_is_there (Some 1%nat)
           (words EXAMPLE_CROSSWORD) (4, 0, 0)).
  reflexivity.
Defined.

Lemma conflict_marker_has_a_cause_witness :
  let ws := [mkWord "HELLO" X (0, 0, 0) "Greeting";
             mkWord "AXXXX" Y (4, 0, 0) "Clash"] in
  letterAt (createLetters None ws) (4, 0, 0) = Some CONFLICT
  ∧ ((∃ i k, placesAt ws i k CONFLICT (4, 0, 0))
     ∨ ∃ i1 k1 a i2 k2 b,
         placesAt ws i1 k1 a (4, 0, 0) ∧ placesAt ws i2 k2 b (4, 0, 0)
         ∧ a ≠ SPACE ∧ b ≠ SPACE ∧ a ≠ b).
Proof.
  intros ws.
  assert (letterAt (createLetters None ws) (4, 0, 0) = Some CONFLICT) as H
    by reflexivity.
  split; [exact H|]. exact (conflict_marker_has_a_cause None ws (4, 0, 0) H).
Defined.

Lemma opened_crossword_shows_every_letter_witness :
  openCrossword EXAMPLE_CROSSWORD = Opened EXAMPLE_CROSSWORD
  ∧ placesAt (words EXAMPLE_CROSSWORD) 1 1 "O" (4, 0, 0)
  ∧ letterAt (createLetters None (words EXAMPLE_CROSSWORD)) (4, 0, 0)
    = Some "O"%char.
Proof.
  assert (openCrossword EXAMPLE_CROSSWORD = Opened EXAMPLE_CROSSWORD) as Ho
    by reflexivity.
  assert (placesAt (words EXAMPLE_CROSSWORD) 1 1 "O" (4, 0, 0)) as Hp
    by (eexists; split_and!; reflexivity).
  split_and!; [exact Ho | exact Hp |].
  exact (opened_crossword_shows_every_letter None _ _ 1%nat 1%nat "O"%char
           (4, 0, 0) Ho Hp).
Defined.

Lemma saved_crossword_opens_witness :
  (∀ w, w ∈ words EXAMPLE_CROSSWORD →
        onlyContainsUpperCaseAlphabetsAndSpaces (word w) = true)
  ∧ allowSave EXAMPLE_CROSSWORD
      (createLetters None (words EXAMPLE_CROSSWORD)) = true
  ∧ openCrossword EXAMPLE_CROSSWORD = Opened EXAMPLE_CROSSWORD.
Proof.
  assert (∀ w, w ∈ words EXAMPLE_CROSSWORD →
               onlyContainsUpperCaseAlphabetsAndSpaces (word w) = true) as Hup
    by (intros w Hw; simpl in Hw; in_list Hw; reflexivity).
  assert (allowSave EXAMPLE_CROSSWORD
            (createLetters None (words EXAMPLE_CROSSWORD)) = true) as Hs
    by reflexivity.
  split_and!; [exact Hup | exact Hs |].
  exact (saved_crossword_opens None EXAMPLE_CROSSWORD Hup Hs).
Defined.

Lemma opened_upper_case_crossword_can_be_saved_witness :
  openCrossword EXAMPLE_CROSSWORD = Opened EXAMPLE_CROSSWORD
  ∧ words EXAMPLE_CROSSWORD ≠ []
  ∧ (∀ w ch, w ∈ words EXAMPLE_CROSSWORD → ch ∈ chars (word w) →
             isUpperCase ch)
  ∧ allowSave EXAMPLE_CROSSWORD
      (createLetters (Some 0%nat) (words EXAMPLE_CROSSWORD)) = true.
Proof.
  assert (openCrossword EXAMPLE_CROSSWORD = Opened EXAMPLE_CROSSWORD) as Ho
    by reflexivity.
  assert (words EXAMPLE_CROSSWORD ≠ []) as Hne by discriminate.
  assert (∀ w ch, w ∈ words EXAMPLE_CROSSWORD → ch ∈ chars (word w) →
                  isUpperCase ch) as Hup.
  { intros w ch Hw Hch. simpl in Hw. in_list Hw; simpl in Hch; in_list Hch;
      (split; vm_compute; discriminate). }
  split_and!; [exact Ho | exact Hne | exact Hup |].
  exact (opened_upper_case_crossword_can_be_saved (Some 0%nat) _ _ Ho Hne Hup).
Defined.


Lemma edit_then_undo_restores_witness :
  synced initialState
  ∧ ∃ s', createCrosswordReducer initialState NewWord = Some s'
          ∧ ∃ u, createCrosswordReducer s' Undo = Some u
                 ∧ crossword u = crossword initialState
                 ∧ currentWordIndex u = currentWordIndex initialState
                 ∧ orbitCenter u = orbitCenter initialState
                 ∧ historyIndex u = historyIndex initialState
                 ∧ history u = history s'.
Proof.
  assert (synced initialState) as Hs by (eexists; split_and!; reflexivity).
  split; [exact Hs|]. eexists. split; [reflexivity|].
  apply (edit_then_undo_restores initialState NewWord _ Hs);
    [reflexivity | discriminate | reflexivity].
Defined.


Lemma deleteWord_orbitCenter_nonempty_witness :
  let s := mkState EXAMPLE_CROSSWORD None (4, 0, 0)
             [mkHistory None (4, 0, 0) "Example" None] 0 in
  (∀ w, w ∈ words (crossword s) → (0 < String.length (word w))%nat)
  ∧ ∃ s', createCrosswordReducer s (DeleteWord 0) = Some s'
          ∧ ((orbitCenter s' = orbitCenter s
              ∧ ∃ j w, j ≠ 0%nat ∧ words (crossword s) !! j = Some w
                       ∧ inSpan w (orbitCenter s))
             ∨ (orbitCenter s' = origin
                ∧ ∀ j w, j ≠ 0%nat → words (crossword s) !! j = Some w →
                         ¬ inSpan w (orbitCenter s))).
Proof.
  intros s.
  assert (∀ w, w ∈ words (crossword s) → (0 < String.length (word w))%nat)
    as Hne by (intros w Hw; simpl in Hw; in_list Hw; simpl; lia).
  split; [exact Hne|]. eexists. split; [reflexivity|].
  apply (deleteWord_orbitCenter_nonempty s 0%nat _ Hne). reflexivity.
Defined.


Lemma deleteWord_keeps_focus_on_remaining_word_witness :
  let w := mkWord "HELLO" X (0, 0, 0) "Greeting" in
  let s := mkState EXAMPLE_CROSSWORD None (2, 0, 0)
             [mkHistory None (2, 0, 0) "Example" None] 0 in
  words (crossword s) !! 0%nat = Some w ∧ 0%nat ≠ 1%nat
  ∧ orbitCenter s = centerBlock w
  ∧ ∃ s', createCrosswordReducer s (DeleteWord 1) = Some s'
          ∧ orbitCenter s' = orbitCenter s.
Proof.
  intros w s. split_and!; [reflexivity | discriminate | reflexivity |].
  eexists. split; [reflexivity|].
  apply (deleteWord_keeps_focus_on_remaining_word s 0%nat 1%nat w);
    [reflexivity | discriminate | reflexivity | reflexivity].
Defined.

Lemma example_guesses_fit :
  guessesFit EXAMPLE_CROSSWORD ["HE"; ""]%string.
Proof.
  intros [|[|i]] g Hg; simpl in Hg; [| |discriminate];
    injection Hg as <-; eexists; (split; [reflexivity | simpl; lia]).
Defined.

Lemma viewLetters_is_the_reconciler_on_guesses_witness :
  guessesFit EXAMPLE_CROSSWORD ["HE"; ""]%string
  ∧ viewLetters (Some 1%nat) EXAMPLE_CROSSWORD ["HE"; ""]%string
    = Some (placeWordsFrom (Some 1%nat) 0
              (guessWords EXAMPLE_CROSSWORD ["HE"; ""]%string)
              (answerPass (Some 1%nat) EXAMPLE_CROSSWORD)).
Proof.
  split; [exact example_guesses_fit|].
  exact (viewLetters_is_the_reconciler_on_guesses (Some 1%nat)
           EXAMPLE_CROSSWORD _ example_guesses_fit).
Defined.

Lemma viewLetters_blocks_are_the_answer_positions_witness :
  ∃ m, viewLetters None EXAMPLE_CROSSWORD ["HE"; ""]%string = Some m
       ∧ (is_Some (m !! (4, 0, 0))
          ↔ ∃ i k ch, placesAt (words EXAMPLE_CROSSWORD) i k ch (4, 0, 0)).
Proof.
  eexists. split; [reflexivity|].
  apply (viewLetters_blocks_are_the_answer_positions None EXAMPLE_CROSSWORD
           ["HE"; ""]%string).
  reflexivity.
Defined.

Lemma solved_view_shows_the_answers_witness :
  placementsAgree (words EXAMPLE_CROSSWORD)
  ∧ length ["HELLO"; "WORLD"]%string = length (words EXAMPLE_CROSSWORD)
  ∧ solved EXAMPLE_CROSSWORD ["HELLO"; "WORLD"]%string = true
  ∧ ∃ m, viewLetters None EXAMPLE_CROSSWORD ["HELLO"; "WORLD"]%string = Some m
         ∧ ∀ i k ch p, placesAt (words EXAMPLE_CROSSWORD) i k ch p →
                       letterAt m p = Some ch.
Proof.
  assert (placementsAgree (words EXAMPLE_CROSSWORD)) as Hag.
  { apply (openCrossword_Opened EXAMPLE_CROSSWORD EXAMPLE_CROSSWORD).
    reflexivity. }
  split_and!; [exact Hag | reflexivity | reflexivity |].
  apply (solved_view_shows_the_answers None EXAMPLE_CROSSWORD _ Hag);
    reflexivity.
Defined.

Lemma guessValidity_true_iff_witness :
  ∃ letters v,
    menuLetters EXAMPLE_CROSSWORD ["HELLO"; "WO"]%string = Some letters
    ∧ guessValidity EXAMPLE_CROSSWORD ["HELLO"; "WO"]%string = Some v
    ∧ (v !! 0%nat = Some true
       ↔ String.length "HELLO" = String.length "HELLO"
         ∧ (SPACE ∉ chars "HELLO")
         ∧ ∀ (p : Coord) (e : MenuEntry),
             letters !! p = Some e → menuLetter e = CONFLICT →
             0%nat ∉ menuLettersBy e).
Proof.
  eexists _, _. split; [reflexivity|]. split; [reflexivity|].
  apply (guessValidity_true_iff EXAMPLE_CROSSWORD ["HELLO"; "WO"]%string
           _ _ 0%nat "HELLO"%string (mkWord "HELLO" X (0, 0, 0) "Greeting"));
    reflexivity.
Defined.

Lemma typed_guesses_keep_the_view_defined_witness :
  ∃ gs,
    typeGuesses EXAMPLE_CROSSWORD (initialGuesses EXAMPLE_CROSSWORD)
      [(0%nat, "HE"%string); (1%nat, "W"%string); (0%nat, "HELLOS"%string)]
    = Some gs
    ∧ length gs = length (words EXAMPLE_CROSSWORD)
    ∧ guessesFit EXAMPLE_CROSSWORD gs
    ∧ is_Some (viewLetters None EXAMPLE_CROSSWORD gs)
    ∧ is_Some (menuLetters EXAMPLE_CROSSWORD gs).
Proof.
  eexists. split; [reflexivity|].
  apply (typed_guesses_keep_the_view_defined None EXAMPLE_CROSSWORD
           [(0%nat, "HE"%string); (1%nat, "W"%string);
            (0%nat, "HELLOS"%string)]).
  reflexivity.
Defined.

Lemma containsOrbitCenter_marks_the_words_at_the_focus_witness :
  let w := mkWord "WORLD" Y (4, 1, 0) "Earth" in
  words EXAMPLE_CROSSWORD !! 1%nat = Some w
  ∧ containsOrbitCenter EXAMPLE_CROSSWORD (centerBlock w) !! 1%nat = Some true
  ∧ ((0 < String.length (word w))%nat →
     ∀ o, containsOrbitCenter EXAMPLE_CROSSWORD o !! 1%nat = Some true
          ↔ inSpan w o).
Proof.
  intros w. split; [reflexivity|].
  apply (containsOrbitCenter_marks_the_words_at_the_focus
           EXAMPLE_CROSSWORD 1%nat w).
  reflexivity.
Defined.

End MoreInstances.
